(** * go-gh-page: path mapping, reference rewriting and navigation

    A shallow embedding of the static-site composition code of go-gh-page
    (packages [utils], [generator] and the contributor statistics of
    [git]) together with the properties its specification states.

    Go strings are byte sequences; they are modelled as [list ascii].
    The functions of Go's [strings] and [path/filepath] packages that the
    code calls are modelled on bytes, for the Unix separator ['/']. *)

From Stdlib Require Import Ascii String ZArith Lia Bool Permutation.
From stdpp Require Import list sorting.

Local Open Scope char_scope.
Local Open Scope list_scope.

(** ** Strings *)

Definition gostring := list ascii.

Definition str (s : string) : gostring := list_ascii_of_string s.
Arguments str _%_string.

#[global] Instance ascii_eq_dec : EqDecision ascii := Ascii.ascii_dec.

Module strings.

(** [strings.HasPrefix]: [len(s) >= len(prefix) && s[:len(prefix)] == prefix]. *)
Definition HasPrefix (s prefix : gostring) : bool :=
  (length prefix <=? length s)%nat && bool_decide (take (length prefix) s = prefix).

(** [strings.HasSuffix]: [len(s) >= len(suffix) && s[len(s)-len(suffix):] == suffix]. *)
Definition HasSuffix (s suffix : gostring) : bool :=
  (length suffix <=? length s)%nat
  && bool_decide (drop (length s - length suffix) s = suffix).

Definition TrimSuffix (s suffix : gostring) : gostring :=
  if HasSuffix s suffix then take (length s - length suffix) s else s.

Definition TrimPrefix (s prefix : gostring) : gostring :=
  if HasPrefix s prefix then drop (length prefix) s else s.

(** [strings.ToLower] on ASCII text: the letters ['A'..'Z'] are mapped to
    ['a'..'z'], every other byte is kept. *)
Definition lower_byte (c : ascii) : ascii :=
  let n := nat_of_ascii c in
  if (65 <=? n)%nat && (n <=? 90)%nat then ascii_of_nat (n + 32) else c.

Definition ToLower (s : gostring) : gostring := map lower_byte s.

(** [strings.Index(s, sep)] for a one-byte [sep]: the index of its first
    occurrence, or [-1]. *)
Fixpoint IndexByte (s : gostring) (c : ascii) : Z :=
  match s with
  | [] => (-1)%Z
  | x :: s' =>
      if Ascii.eqb x c then 0%Z
      else let i := IndexByte s' c in
           if (i <? 0)%Z then (-1)%Z else (i + 1)%Z
  end.

(** [strings.Join(elems, sep)]. *)
Fixpoint Join (elems : list gostring) (sep : gostring) : gostring :=
  match elems with
  | [] => []
  | [e] => e
  | e :: es => e ++ sep ++ Join es sep
  end.

End strings.

(** The longest prefix of [s] whose bytes satisfy [p], and the rest. *)
Fixpoint span (p : ascii -> bool) (s : gostring) : gostring * gostring :=
  match s with
  | [] => ([], [])
  | c :: s' =>
      if p c then let '(a, b) := span p s' in (c :: a, b) else ([], s)
  end.

(** ** path/filepath (Unix) *)

Module filepath.

Definition Separator : ascii := "/".

Definition IsPathSeparator (c : ascii) : bool := Ascii.eqb c Separator.

(** The path elements between separators, as [strings.Split(path, "/")]. *)
Fixpoint elements (path : gostring) : list gostring :=
  match path with
  | [] => [[]]
  | c :: s =>
      if IsPathSeparator c then [] :: elements s
      else match elements s with
           | e :: es => (c :: e) :: es
           | [] => [[c]]
           end
  end.

(** The element loop of [Clean].  [out] is the output buffer as a stack of
    elements, last written first; [..] elements are only ever at its
    bottom (Go's [dotdot] mark), so "can backtrack" is "the top is an
    element other than [..]". *)
Fixpoint clean_elems (rooted : bool) (out : list gostring)
         (elems : list gostring) : list gostring :=
  match elems with
  | [] => out
  | e :: es =>
      if bool_decide (e = []) then clean_elems rooted out es
      else if bool_decide (e = str ".") then clean_elems rooted out es
      else if bool_decide (e = str "..") then
        match out with
        | top :: out' =>
            if bool_decide (top = str "..")
            then clean_elems rooted (e :: out) es
            else clean_elems rooted out' es
        | [] =>
            if rooted then clean_elems rooted [] es
            else clean_elems rooted [e] es
        end
      else clean_elems rooted (e :: out) es
  end.

(** [filepath.Clean]: collapse repeated separators, drop [.] elements,
    resolve inner [..] elements, drop [..] at the start of a rooted path;
    the empty result is ["."]. *)
Definition Clean (path : gostring) : gostring :=
  match path with
  | [] => str "."
  | c :: _ =>
      let rooted := IsPathSeparator c in
      let out := rev (clean_elems rooted [] (elements path)) in
      if rooted then Separator :: strings.Join out [Separator]
      else match out with
           | [] => str "."
           | _ => strings.Join out [Separator]
           end
  end.

(** [filepath.Join]: leading empty elements are ignored, the rest is joined
    with separators and cleaned; no non-empty element gives [""]. *)
Fixpoint Join (elem : list gostring) : gostring :=
  match elem with
  | [] => []
  | e :: es =>
      if bool_decide (e = []) then Join es
      else Clean (strings.Join elem [Separator])
  end.

(** [filepath.Base]: the last element of the path, trailing separators
    removed first; ["."] for the empty path, ["/"] for separators only. *)
Definition Base (path : gostring) : gostring :=
  match path with
  | [] => str "."
  | _ =>
      let stripped := snd (span IsPathSeparator (rev path)) in
      let last := rev (fst (span (fun c => negb (IsPathSeparator c)) stripped)) in
      match last with
      | [] => [Separator]
      | _ => last
      end
  end.

(** [filepath.Dir]: everything up to and including the last separator,
    cleaned. *)
Definition Dir (path : gostring) : gostring :=
  Clean (rev (snd (span (fun c => negb (IsPathSeparator c)) (rev path)))).

(** [filepath.Ext]: scanning backwards from the end of the path, the suffix
    that starts at the first ['.'] met before any separator; [""] if there
    is none. *)
Definition Ext (path : gostring) : gostring :=
  let '(tail, rest) :=
    span (fun c => negb (IsPathSeparator c) && negb (Ascii.eqb c ".")) (rev path) in
  match rest with
  | c :: _ => if Ascii.eqb c "." then c :: rev tail else []
  | [] => []
  end.

End filepath.

(** ** utils: output paths *)

(** [GetOutputPath] converts a markdown file path to its HTML output path. *)
Definition GetOutputPath (path baseDir : gostring) : gostring :=
  let baseName := filepath.Base path in
  let dir := filepath.Dir path in
  let baseName :=
    strings.TrimSuffix baseName (filepath.Ext baseName) ++ str ".html" in
  if bool_decide (dir = str ".") then filepath.Join [baseDir; baseName]
  else filepath.Join [baseDir; dir; baseName].

(** ** regexp: the two reference patterns

    The link pattern is an opening bracket, one or more bytes other than a
    closing bracket (group 1), a closing bracket, an opening parenthesis,
    one or more bytes other than a closing parenthesis (group 2) and a
    closing parenthesis.  The image pattern is an exclamation mark followed
    by the same, except that group 1 may be empty.  Each negated class is
    followed by the very byte it excludes, so the greedy repetition has
    exactly one way to match: the whole run up to the first excluded byte.
    All delimiters are ASCII, so matching bytes and matching runes agree. *)

Module regexp.

Inductive Regexp := LinkRe | ImageRe.

Definition notByte (c : ascii) : ascii -> bool := fun x => negb (Ascii.eqb x c).

(** The text matched by a pattern whose groups are [g1] and [g2]. *)
Definition whole (re : Regexp) (g1 g2 : gostring) : gostring :=
  match re with
  | LinkRe => str "[" ++ g1 ++ str "](" ++ g2 ++ str ")"
  | ImageRe => str "![" ++ g1 ++ str "](" ++ g2 ++ str ")"
  end.

(** The bracketed part [\[(g1)\]\((g2)\)]; [allow_empty] says whether the
    first group is [*] rather than [+]. *)
Definition bracket_at (allow_empty : bool) (s : gostring)
  : option (gostring * gostring) :=
  match s with
  | "[" :: s1 =>
      let '(g1, s2) := span (notByte "]") s1 in
      if allow_empty || negb (bool_decide (g1 = [])) then
        match s2 with
        | "]" :: "(" :: s3 =>
            let '(g2, s4) := span (notByte ")") s3 in
            match g2, s4 with
            | _ :: _, ")" :: _ => Some (g1, g2)
            | _, _ => None
            end
        | _ => None
        end
      else None
  | _ => None
  end.

(** A match of [re] that starts at the first byte of [s]: its two groups. *)
Definition match_at (re : Regexp) (s : gostring) : option (gostring * gostring) :=
  match re with
  | LinkRe => bracket_at false s
  | ImageRe =>
      match s with
      | "!" :: s1 => bracket_at true s1
      | _ => None
      end
  end.

(** [re.FindStringSubmatch(s)]: the leftmost match and its groups,
    [nil] when there is none. *)
Fixpoint FindStringSubmatch (re : Regexp) (s : gostring) : list gostring :=
  match s with
  | [] => []
  | _ :: s' =>
      match match_at re s with
      | Some (g1, g2) => [whole re g1 g2; g1; g2]
      | None => FindStringSubmatch re s'
      end
  end.

(** The scan of [re.ReplaceAllStringFunc]: [skip] is the number of bytes
    of the last match still to be passed over. *)
Fixpoint replace_from (re : Regexp) (repl : gostring -> gostring)
         (skip : nat) (src : gostring) : gostring :=
  match src with
  | [] => []
  | c :: src' =>
      match skip with
      | S k => replace_from re repl k src'
      | O =>
          match match_at re src with
          | Some (g1, g2) =>
              let m := whole re g1 g2 in
              repl m ++ replace_from re repl (length m - 1) src'
          | None => c :: replace_from re repl 0 src'
          end
      end
  end.

(** [re.ReplaceAllStringFunc(src, repl)]: every leftmost non-overlapping
    match is replaced by [repl] of the matched text. *)
Definition ReplaceAllStringFunc (re : Regexp) (src : gostring)
           (repl : gostring -> gostring) : gostring :=
  replace_from re repl 0 src.

End regexp.

(** ** utils: the markdown-link pass *)

(** [isImageLink] checks if a link points to an image. *)
Definition isImageLink (link : gostring) : bool :=
  let extensions :=
    [str ".jpg"; str ".jpeg"; str ".png"; str ".gif"; str ".svg"; str ".webp"] in
  let lower := strings.ToLower link in
  existsb (fun ext => strings.HasSuffix lower ext) extensions.

(** [isMarkdownLink] checks if a link points to a markdown file. *)
Definition isMarkdownLink (link : gostring) : bool :=
  let extensions := [str ".md"; str ".markdown"; str ".mdown"; str ".mkdn"] in
  let lower := strings.ToLower link in
  existsb (fun ext => strings.HasSuffix lower ext) extensions.

(** The resolution of a link target against the directory of the document
    that contains it (the block "If the link is relative, resolve it"). *)
Definition resolveLink (baseDir resolvedPath : gostring) : gostring :=
  if negb (strings.HasPrefix resolvedPath (str "/")) then
    let resolvedPath :=
      if strings.HasPrefix resolvedPath (str "./") then drop 2 resolvedPath
      else resolvedPath in
    if negb (bool_decide (baseDir = str ".")) then filepath.Join [baseDir; resolvedPath]
    else resolvedPath
  else drop 1 resolvedPath.

(** The replacement function of [ProcessRelativeLinks]. *)
Definition rewriteLink (baseDir : gostring) (match_ : gostring) : gostring :=
  match regexp.FindStringSubmatch regexp.LinkRe match_ with
  | [_; linkText; linkTarget] =>
      if strings.HasPrefix linkTarget (str "http")
         || strings.HasPrefix linkTarget (str "#") then match_
      else if isImageLink linkTarget then match_
      else if isMarkdownLink linkTarget then
        let idx := strings.IndexByte linkTarget "#" in
        let '(anchor, linkTarget) :=
          if (idx >? -1)%Z
          then (drop (Z.to_nat idx) linkTarget, take (Z.to_nat idx) linkTarget)
          else ([], linkTarget) in
        let resolvedPath := resolveLink baseDir linkTarget in
        let htmlPath := str "../" ++ GetOutputPath resolvedPath (str "docs") in
        str "[" ++ linkText ++ str "](" ++ htmlPath ++ anchor ++ str ")"
      else match_
  | _ => match_
  end.

(** [ProcessRelativeLinks] handles relative links in markdown content. *)
Definition ProcessRelativeLinks (content filePath owner repo : gostring) : gostring :=
  let baseDir := filepath.Dir filePath in
  regexp.ReplaceAllStringFunc regexp.LinkRe content (rewriteLink baseDir).

(** ** generator: the image pass *)

(** The path of an image relative to the root (the block "Make the path
    relative to the root"). *)
Definition resolveImage (baseDir imagePath : gostring) : gostring :=
  if negb (strings.HasPrefix imagePath (str "/")) then
    let imagePath :=
      if strings.HasPrefix imagePath (str "./") then drop 2 imagePath
      else imagePath in
    if negb (bool_decide (baseDir = str "."))
    then filepath.Join [baseDir; imagePath]
    else imagePath
  else strings.TrimPrefix imagePath (str "/").

(** The replacement function of [processImageLinks]. *)
Definition rewriteImage (baseDir : gostring) (match_ : gostring) : gostring :=
  match regexp.FindStringSubmatch regexp.ImageRe match_ with
  | [_; altText; imagePath] =>
      if strings.HasPrefix imagePath (str "http") then match_
      else
        let imagePath := resolveImage baseDir imagePath in
        let localPath := str "../images/" ++ filepath.Base imagePath in
        str "![" ++ altText ++ str "](" ++ localPath ++ str ")"
  | _ => match_
  end.

(** [processImageLinks] updates image links to point to the local images. *)
Definition processImageLinks (content filePath : gostring) : gostring :=
  let baseDir := filepath.Dir filePath in
  regexp.ReplaceAllStringFunc regexp.ImageRe content (rewriteImage baseDir).

(** ** utils: navigation entries and their order *)

(** [DocPage] represents a documentation page for navigation. *)
Record DocPage := mkDocPage {
  Title : gostring;
  Path : gostring;
  IsActive : bool
}.

#[global] Instance DocPage_eq_dec : EqDecision DocPage.
Proof. solve_decision. Defined.

(** Go compares strings byte by byte; a proper prefix is smaller. *)
Fixpoint string_compare (a b : gostring) : comparison :=
  match a, b with
  | [], [] => Eq
  | [], _ :: _ => Lt
  | _ :: _, [] => Gt
  | x :: a', y :: b' =>
      match Ascii.compare x y with
      | Eq => string_compare a' b'
      | c => c
      end
  end.

(** [a > b] on Go strings. *)
Definition string_gt (a b : gostring) : bool :=
  match string_compare a b with Gt => true | _ => false end.

(** [a <= b] on Go strings. *)
Definition string_le (a b : gostring) : Prop := string_gt a b = false.

(** The "simple bubble sort" both sorting routines are written as:
    [for i := 0; i < len(a); i++ { for j := i + 1; j < len(a); j++ {
       if out_of_order(a[i], a[j]) { a[i], a[j] = a[j], a[i] } } }]. *)
Section ExchangeSort.
Context {A : Type} (out_of_order : A -> A -> bool).

(** [x] may stay in front of [y]: the loop does not exchange them. *)
Definition in_order (x y : A) : Prop := out_of_order x y = false.

(** [n] iterations of the inner loop, from index [j] on. *)
Fixpoint inner_loop (n i j : nat) (a : list A) : list A :=
  match n with
  | O => a
  | S n' =>
      let a' :=
        match a !! i, a !! j with
        | Some x, Some y =>
            if out_of_order x y then <[i := y]> (<[j := x]> a) else a
        | _, _ => a
        end in
      inner_loop n' i (S j) a'
  end.

(** [n] iterations of the outer loop, from index [i] on. *)
Fixpoint outer_loop (n i : nat) (a : list A) : list A :=
  match n with
  | O => a
  | S n' => outer_loop n' (S i) (inner_loop (length a - S i) i (S i) a)
  end.

Definition exchange_sort (a : list A) : list A := outer_loop (length a) 0 a.

(** One run of the inner loop seen on the list: [x] is the entry held at
    index [i], [rest] the entries from [j] on.  The result is the final
    entry at [i] and what [rest] has become. *)
Fixpoint sweep (x : A) (rest : list A) : A * list A :=
  match rest with
  | [] => (x, [])
  | y :: r =>
      if out_of_order x y
      then let '(m, r') := sweep y r in (m, x :: r')
      else let '(m, r') := sweep x r in (m, y :: r')
  end.

End ExchangeSort.

(** [SortDocPagesByTitle] sorts doc pages by title (in place; the result is
    the new content of the slice). *)
Definition SortDocPagesByTitle (pages : list DocPage) : list DocPage :=
  exchange_sort (fun a b => string_gt (Title a) (Title b)) pages.

(** ** git: contributor statistics *)

Module git.

(** [Contributor] represents a repository contributor. *)
Record Contributor := mkContributor {
  Name : gostring;
  Email : gostring;
  Commits : Z;
  AvatarURL : gostring
}.

#[global] Instance Contributor_eq_dec : EqDecision Contributor.
Proof. solve_decision. Defined.

(** The author of a commit, as the commit iterator yields it. *)
Record Commit := mkCommit {
  AuthorName : gostring;
  AuthorEmail : gostring
}.

(** The [contributors] map, keyed by e-mail address; its entries are kept
    here in the order in which the keys were first inserted. *)
Definition contributorMap := list Contributor.

Definition exists_key (m : contributorMap) (email : gostring) : bool :=
  existsb (fun c => bool_decide (Email c = email)) m.

(** [contributors[email].Commits++] *)
Definition increment (m : contributorMap) (email : gostring) : contributorMap :=
  map (fun c =>
         if bool_decide (Email c = email)
         then mkContributor (Name c) (Email c) (Commits c + 1) (AvatarURL c)
         else c) m.

(** The body of the commit callback of [GetRepositoryData]. *)
Definition track (m : contributorMap) (c : Commit) : contributorMap :=
  let email := AuthorEmail c in
  let m :=
    if negb (exists_key m email)
    then m ++ [mkContributor (AuthorName c) email 0
                 (str "https://avatars.githubusercontent.com/u/0?v=4")]
    else m in
  increment m email.

Definition processCommits (log : list Commit) : contributorMap :=
  fold_left track log [].

(** [sortContributorsByCommits] sorts contributors by commit count
    (descending). *)
Definition sortContributorsByCommits (contributors : list Contributor)
  : list Contributor :=
  exchange_sort (fun a b => (Commits a <? Commits b)%Z) contributors.

(** The contributor list of [GetRepositoryData].  [ranged] is the sequence
    in which [range contributors] yields the map's entries, which Go does
    not specify: some permutation of the entries. *)
Definition topContributors (ranged : list Contributor) : list Contributor :=
  let contributors := sortContributorsByCommits ranged in
  if (5 <? length contributors)%nat then take 5 contributors else contributors.

(** Entries with equal commit counts appear in [result] in the order in
    which they appear in [encountered]. *)
Definition ties_in_order (encountered result : list Contributor) : Prop :=
  forall i j x y,
    (i < j)%nat -> result !! i = Some x -> result !! j = Some y ->
    Commits x = Commits y ->
    exists p q, (p < q)%nat /\ encountered !! p = Some x /\ encountered !! q = Some y.

(** [RepositoryData], as far as page composition reads it ([RepoName] is
    its field [Name]).  The entries of the [MarkdownFiles] map are listed
    once each. *)
Record RepositoryData := mkRepositoryData {
  Owner : gostring;
  RepoName : gostring;
  ReadmeContent : gostring;
  ReadmePath : gostring;
  MarkdownFiles : list (gostring * gostring)
}.

End git.

(** ** generator: navigation and page composition *)

Module generator.

(** [GenerationResult]: the document count.  (The image count and the
    textual summary are produced by steps that are not modelled here.) *)
Record GenerationResult := mkGenerationResult {
  DocsCount : Z
}.

(** [PageData], as far as the claims read it.  [DocsPages] holds the
    elements of the slice at the moment the template is executed. *)
Record PageData := mkPageData {
  RepoFullName : gostring;
  ReadmeHTML : gostring;
  DocsPages : list DocPage;
  CurrentPage : gostring;
  PageTitle : gostring;
  PageContent : gostring
}.

(** A page written below the output directory: its path, the name of the
    template it was rendered with, and the data given to the template. *)
Record File := mkFile {
  fileName : gostring;
  template : gostring;
  data : PageData
}.

(** A Go [error]: [None] is [nil]. *)
Definition error := option gostring.

(** The slices in memory, by address, and the files written so far. *)
Record state := mkState {
  slices : list (list DocPage);
  written : list File
}.

(** [isReadmeFile] checks if a file is a README. *)
Definition isReadmeFile (filename : gostring) : bool :=
  let lowerFilename := strings.ToLower filename in
  strings.HasPrefix lowerFilename (str "readme.").

(** [make([]utils.DocPage, n)]: a fresh slice of zero values. *)
Definition make_slice (n : nat) (h : list (list DocPage)) : nat * list (list DocPage) :=
  (length h, h ++ [replicate n (mkDocPage [] [] false)]).

(** [copy(dst, src)]: the first [min(len(dst), len(src))] elements. *)
Definition copy_slice (dst src : nat) (h : list (list DocPage)) : list (list DocPage) :=
  match h !! dst, h !! src with
  | Some d, Some s => <[dst := take (length d) s ++ drop (length s) d]> h
  | _, _ => h
  end.

(** [for i := range cur { if cur[i].Path == outputPath { cur[i].IsActive = true } }],
    [n] iterations from index [i] on. *)
Fixpoint mark_loop (n i : nat) (cur : nat) (outputPath : gostring)
         (h : list (list DocPage)) : list (list DocPage) :=
  match n with
  | O => h
  | S n' =>
      let h' :=
        match h !! cur with
        | Some pages =>
            match pages !! i with
            | Some pg =>
                if bool_decide (Path pg = outputPath)
                then <[cur := <[i := mkDocPage (Title pg) (Path pg) true]> pages]> h
                else h
            | None => h
            end
        | None => h
        end in
      mark_loop n' (S i) cur outputPath h'
  end.

(** What the marking loop makes of the elements of a slice. *)
Definition markActive (outputPath : gostring) (pages : list DocPage) : list DocPage :=
  map (fun pg => if bool_decide (Path pg = outputPath)
                 then mkDocPage (Title pg) (Path pg) true else pg) pages.

(** The number of entries flagged active. *)
Definition activeCount (pages : list DocPage) : nat :=
  length (filter (fun pg => IsActive pg = true) pages).

Section Site.

(** The collaborators of the composition code: title extraction, markdown
    rendering, and whether rendering and writing the page at a given output
    path succeeds. *)
Variable GetTitleFromMarkdown : gostring -> gostring.
Variable PrettifyFilename : gostring -> gostring.
Variable renderMarkdown : gostring -> gostring.
Variable writable : gostring -> bool.

Variable repoData : git.RepositoryData.

(** The title of a document: its first heading, else its prettified name. *)
Definition titleOf (path content : gostring) : gostring :=
  let title := GetTitleFromMarkdown content in
  if bool_decide (title = []) then PrettifyFilename (filepath.Base path) else title.

(** The first loop of [GenerateSite]: the navigation entries, in the order
    in which [range] yields the documents. *)
Fixpoint collectDocsPages (range : list (gostring * gostring))
         (docsPages : list DocPage) : list DocPage :=
  match range with
  | [] => docsPages
  | (path, content) :: range' =>
      if isReadmeFile (filepath.Base path) then collectDocsPages range' docsPages
      else
        let title := titleOf path content in
        let outputPath := GetOutputPath path (str "docs") in
        collectDocsPages range' (docsPages ++ [mkDocPage title outputPath false])
  end.

(** [generateMainPage] creates the main index.html; [docsPages] is the
    address of the navigation slice, which the page data shares. *)
Definition generateMainPage (docsPages : nat) (st : state) : error * state :=
  let fullName := git.Owner repoData ++ str "/" ++ git.RepoName repoData in
  let data :=
    mkPageData fullName (renderMarkdown (git.ReadmeContent repoData))
               (default [] (slices st !! docsPages))
               (str "index.html") fullName [] in
  if writable (str "index.html")
  then (None, mkState (slices st) (written st ++ [mkFile (str "index.html") (str "main") data]))
  else (Some (str "failed to write index.html"), st).

(** [generateDocPage] creates an HTML page for a markdown file. *)
Definition generateDocPage (path content : gostring) (docsPages : nat) (st : state)
  : error * state :=
  let title := titleOf path content in
  let processedContent :=
    ProcessRelativeLinks content path (git.Owner repoData) (git.RepoName repoData) in
  let processedContent := processImageLinks processedContent path in
  let contentHTML := renderMarkdown processedContent in
  let '(currentDocsPages, h) :=
    make_slice (length (default [] (slices st !! docsPages))) (slices st) in
  let h := copy_slice currentDocsPages docsPages h in
  let outputPath := GetOutputPath path (str "docs") in
  let h :=
    mark_loop (length (default [] (h !! currentDocsPages))) 0
              currentDocsPages outputPath h in
  let fullName := git.Owner repoData ++ str "/" ++ git.RepoName repoData in
  let data :=
    mkPageData fullName [] (default [] (h !! currentDocsPages)) outputPath
               (title ++ str " - " ++ fullName) contentHTML in
  if writable outputPath
  then (None, mkState h (written st ++ [mkFile outputPath (str "doc") data]))
  else (Some (str "failed to write " ++ outputPath), mkState h (written st)).

(** The second loop of [GenerateSite]: one page per document that is not a
    README, counting the pages; the first failure ends the run. *)
Fixpoint generateDocPages (range : list (gostring * gostring)) (docsPages : nat)
         (count : Z) (st : state) : option Z * state :=
  match range with
  | [] => (Some count, st)
  | (path, content) :: range' =>
      if isReadmeFile (filepath.Base path)
      then generateDocPages range' docsPages count st
      else
        match generateDocPage path content docsPages st with
        | (Some _, st') => (None, st')
        | (None, st') => generateDocPages range' docsPages (count + 1)%Z st'
        end
  end.

(** [GenerateSite], from the construction of the navigation on.  The two
    [range] loops over the [MarkdownFiles] map each visit its entries in an
    order Go leaves open: [navRange] and [pageRange].  The navigation slice
    is the first slice in memory. *)
Definition GenerateSite (navRange pageRange : list (gostring * gostring))
  : option GenerationResult * state :=
  let docsPages := SortDocPagesByTitle (collectDocsPages navRange []) in
  let st := mkState [docsPages] [] in
  match generateMainPage 0 st with
  | (Some _, st) => (None, st)
  | (None, st) =>
      match generateDocPages pageRange 0 0%Z st with
      | (Some n, st) => (Some (mkGenerationResult n), st)
      | (None, st) => (None, st)
      end
  end.

(** The documents a [range] yields that are not skipped as READMEs. *)
Definition rendered (range : list (gostring * gostring)) : list (gostring * gostring) :=
  filter (fun d => isReadmeFile (filepath.Base d.1) = false) range.

(** The navigation entry of a document. *)
Definition entryOf (d : gostring * gostring) : DocPage :=
  mkDocPage (titleOf d.1 d.2) (GetOutputPath d.1 (str "docs")) false.

(** The overview page, given the navigation [nav]. *)
Definition mainPageFile (nav : list DocPage) : File :=
  let fullName := git.Owner repoData ++ str "/" ++ git.RepoName repoData in
  mkFile (str "index.html") (str "main")
         (mkPageData fullName (renderMarkdown (git.ReadmeContent repoData)) nav
                     (str "index.html") fullName []).

(** The page of the document [d], given the navigation [nav]. *)
Definition docPageFile (nav : list DocPage) (d : gostring * gostring) : File :=
  let fullName := git.Owner repoData ++ str "/" ++ git.RepoName repoData in
  let outputPath := GetOutputPath d.1 (str "docs") in
  mkFile outputPath (str "doc")
         (mkPageData fullName [] (markActive outputPath nav) outputPath
                     (titleOf d.1 d.2 ++ str " - " ++ fullName)
                     (renderMarkdown
                        (processImageLinks
                           (ProcessRelativeLinks d.2 d.1 (git.Owner repoData)
                                                 (git.RepoName repoData)) d.1))).

End Site.

End generator.

(** ** Well-formed document paths

    A proper path element: not empty, not [.] or [..], free of separators.
    The paths under which the repository walk records documents are
    non-empty sequences of such elements, joined by separators. *)
Definition is_name (e : gostring) : bool :=
  negb (bool_decide (e = []))
  && negb (bool_decide (e = str "."))
  && negb (bool_decide (e = str ".."))
  && forallb (fun c => negb (filepath.IsPathSeparator c)) e.

(** No byte of [e] is a separator. *)
Definition no_sep (e : gostring) : bool :=
  forallb (fun c => negb (filepath.IsPathSeparator c)) e.

(** The path of the file [name] in the directory [dirs] below the root. *)
Definition relpath (dirs : list gostring) (name : gostring) : gostring :=
  strings.Join (dirs ++ [name]) [filepath.Separator].

(** ** Occurrences of the reference patterns *)

(** The byte [c] does not occur in [s]. *)
Definition lacks (c : ascii) (s : gostring) : bool := forallb (regexp.notByte c) s.

(** [g1] and [g2] can be the two groups of a match of [re]. *)
Definition is_match (re : regexp.Regexp) (g1 g2 : gostring) : bool :=
  lacks "]" g1
  && match re with
     | regexp.LinkRe => negb (bool_decide (g1 = []))
     | regexp.ImageRe => true
     end
  && lacks ")" g2
  && negb (bool_decide (g2 = [])).

(** The byte every match of [re] starts with. *)
Definition first_byte (re : regexp.Regexp) : ascii :=
  match re with regexp.LinkRe => "[" | regexp.ImageRe => "!" end.

(** No match of [re] in the text [pre ++ rest] starts within [pre]: a match
    at the head of [rest] is the next one the scan finds. *)
Fixpoint starts_no_match (re : regexp.Regexp) (pre rest : gostring) : bool :=
  match pre with
  | [] => true
  | _ :: pre' =>
      match regexp.match_at re (pre ++ rest) with
      | Some _ => false
      | None => starts_no_match re pre' rest
      end
  end.

(** No exclamation mark in [s] is followed by an opening bracket. *)
Fixpoint no_embed_start (s : gostring) : bool :=
  match s with
  | [] => true
  | c :: s' =>
      match s' with
      | c' :: _ => negb (Ascii.eqb c "!" && Ascii.eqb c' "[") && no_embed_start s'
      | [] => true
      end
  end.

(** ** git: commit statistics *)

Module gitlog.

(** A [time.Time] as its distance from the zero instant (January 1 of
    year 1, UTC); only [IsZero] and [After] are used. *)
Definition Time := Z.

Definition IsZero (t : Time) : bool := (t =? 0)%Z.

(** [t.After(u)] *)
Definition After (t u : Time) : bool := (u <? t)%Z.

(** What the commit loop of [GetRepositoryData] accumulates. *)
Record CommitData := mkCommitData {
  CommitCount : Z;
  LastCommitDate : Time;
  contributors : git.contributorMap
}.

(** The callback of [cIter.ForEach]; [c.2] is [c.Author.When]. *)
Definition visitCommit (rd : CommitData) (c : git.Commit * Time) : CommitData :=
  let count := (CommitCount rd + 1)%Z in
  let last :=
    if IsZero (LastCommitDate rd) || After c.2 (LastCommitDate rd)
    then c.2 else LastCommitDate rd in
  mkCommitData count last (git.track (contributors rd) c.1).

(** The commit loop over the history, newest commit first as the iterator
    yields it. *)
Definition forEachCommit (log : list (git.Commit * Time)) : CommitData :=
  fold_left visitCommit log (mkCommitData 0%Z 0%Z []).

(** The number of commits of [log] whose author has the address [email]. *)
Definition commitsBy (email : gostring) (log : list git.Commit) : nat :=
  length (filter (fun c => git.AuthorEmail c = email) log).

(** The author name of the first commit of [log] with the address [email]. *)
Definition firstName (email : gostring) (log : list git.Commit) : option gostring :=
  git.AuthorName <$> head (filter (fun c => git.AuthorEmail c = email) log).

(** The sum of the commit counts of a contributor list. *)
Definition totalCommits (m : list git.Contributor) : Z :=
  foldr (fun c n => (git.Commits c + n)%Z) 0%Z m.

(** The entry of the contributor map with the key [email]. *)
Definition lookupEmail (m : list git.Contributor) (email : gostring)
  : option git.Contributor :=
  head (filter (fun c => git.Email c = email) m).

End gitlog.

(** ** utils: titles *)

Module utils.

(** The class [\s] of Go's regular expressions: tab, line feed, form feed,
    carriage return and space. *)
Definition isSpaceClass (c : ascii) : bool :=
  Ascii.eqb c "009" || Ascii.eqb c "010" || Ascii.eqb c "012"
  || Ascii.eqb c "013" || Ascii.eqb c " ".

(** What [.] matches: any byte but the line feed. *)
Definition notNewline (c : ascii) : bool := negb (Ascii.eqb c "010").

(** The heading pattern behind the [#], after the greedy run of [\s] bytes:
    [given_back] is that run, last byte first, [rest] the text that follows.
    The group needs one byte that is not a line feed; while there is none
    the run gives back its last byte, and it keeps at least one byte.  The
    group then takes the rest of the line, where [$] holds. *)
Fixpoint heading_group (given_back rest : gostring) : option gostring :=
  match given_back with
  | [] => None
  | w :: given_back' =>
      match rest with
      | c :: _ =>
          if notNewline c then Some (span notNewline rest).1
          else heading_group given_back' (w :: rest)
      | [] => heading_group given_back' (w :: rest)
      end
  end.

(** A match of the heading pattern (a [#], one or more [\s] bytes, one or
    more bytes of the line as the group, the end of the line) whose [#] is
    the first byte of [s]: the group. *)
Definition heading_at (s : gostring) : option gostring :=
  match s with
  | "#" :: s1 =>
      let '(ws, rest) := span isSpaceClass s1 in
      heading_group (rev ws) rest
  | _ => None
  end.

(** The leftmost match of the heading pattern in multi-line mode: the [#]
    stands at the start of the text or behind a line feed. *)
Fixpoint find_heading (at_line_start : bool) (s : gostring) : option gostring :=
  match s with
  | [] => None
  | c :: s' =>
      match (if at_line_start then heading_at s else None) with
      | Some g => Some g
      | None => find_heading (Ascii.eqb c "010") s'
      end
  end.

(** [GetTitleFromMarkdown] extracts the first heading from markdown content. *)
Definition GetTitleFromMarkdown (content : gostring) : gostring :=
  match find_heading true content with
  | Some title => title
  | None => []
  end.

(** The white space of [strings.Fields] on ASCII text: tab, line feed,
    vertical tab, form feed, carriage return and space. *)
Definition asciiSpace (c : ascii) : bool :=
  Ascii.eqb c "009" || Ascii.eqb c "010" || Ascii.eqb c "011"
  || Ascii.eqb c "012" || Ascii.eqb c "013" || Ascii.eqb c " ".

(** [strings.Fields] on ASCII text: the maximal runs of bytes that are not
    white space. *)
Fixpoint Fields (s : gostring) : list gostring :=
  match s with
  | [] => []
  | c :: s' =>
      if asciiSpace c then Fields s'
      else match s' with
           | [] => [[c]]
           | c' :: _ =>
               if asciiSpace c' then [c] :: Fields s'
               else match Fields s' with
                    | w :: ws => (c :: w) :: ws
                    | [] => [[c]]
                    end
           end
  end.

(** [strings.ReplaceAll(s, old, new)] for one-byte [old] and [new]. *)
Definition ReplaceByte (s : gostring) (old new : ascii) : gostring :=
  map (fun c => if Ascii.eqb c old then new else c) s.

(** [strings.ToUpper] of a one-byte string: an ASCII letter becomes its
    capital, any other ASCII byte is kept, and a byte from 128 on, which is
    no valid UTF-8 by itself, becomes the replacement character U+FFFD. *)
Definition ToUpperByte (c : ascii) : gostring :=
  let n := nat_of_ascii c in
  if (n <? 128)%nat then
    [if (97 <=? n)%nat && (n <=? 122)%nat then ascii_of_nat (n - 32) else c]
  else ["239"; "191"; "189"].

(** [strings.ToUpper(word[0:1]) + word[1:]] *)
Definition capitalize (word : gostring) : gostring :=
  match word with
  | [] => []
  | c :: w => ToUpperByte c ++ w
  end.

(** [PrettifyFilename] converts a filename to a more readable title. *)
Definition PrettifyFilename (filename : gostring) : gostring :=
  let name := strings.TrimSuffix filename (filepath.Ext filename) in
  let name := ReplaceByte name "-" " " in
  let name := ReplaceByte name "_" " " in
  let words := Fields name in
  let words := map (fun word => if (0 <? length word)%nat then capitalize word else word)
                   words in
  strings.Join words (str " ").

(** Every byte of [s] is ASCII. *)
Definition isASCII (s : gostring) : bool :=
  forallb (fun c => (nat_of_ascii c <? 128)%nat) s.

(** A word of a title: not empty, free of white space, hyphens and
    underscores, and not starting with a small letter. *)
Definition titleWord (w : gostring) : bool :=
  match w with
  | [] => false
  | c :: _ =>
      negb ((97 <=? nat_of_ascii c)%nat && (nat_of_ascii c <=? 122)%nat)
      && forallb (fun x => negb (asciiSpace x) && negb (Ascii.eqb x "-")
                           && negb (Ascii.eqb x "_")) w
  end.

End utils.

(** ** git: the files of the repository *)

Module gitfiles.

(** [isMarkdownFile] checks if a filename has a markdown extension. *)
Definition isMarkdownFile (filename : gostring) : bool :=
  let extensions := [str ".md"; str ".markdown"; str ".mdown"; str ".mkdn"] in
  let lowerFilename := strings.ToLower filename in
  existsb (fun ext => strings.HasSuffix lowerFilename ext) extensions.

(** [isReadmeFile] checks if a file is a README. *)
Definition isReadmeFile (filename : gostring) : bool :=
  let lowerFilename := strings.ToLower filename in
  strings.HasPrefix lowerFilename (str "readme.") && isMarkdownFile filename.

(** [isImageFile] checks if a filename has an image extension. *)
Definition isImageFile (filename : gostring) : bool :=
  let extensions :=
    [str ".jpg"; str ".jpeg"; str ".png"; str ".gif"; str ".svg"; str ".webp"] in
  let lowerFilename := strings.ToLower filename in
  existsb (fun ext => strings.HasSuffix lowerFilename ext) extensions.

(** [isLicenseFile] checks if a file is likely a license file. *)
Definition isLicenseFile (filename : gostring) : bool :=
  let lowerFilename := strings.ToLower filename in
  bool_decide (lowerFilename = str "license")
  || bool_decide (lowerFilename = str "license.md")
  || bool_decide (lowerFilename = str "license.txt")
  || bool_decide (lowerFilename = str "copying").

(** [strings.Contains(s, substr)] *)
Fixpoint Contains (s substr : gostring) : bool :=
  strings.HasPrefix s substr
  || match s with
     | [] => false
     | _ :: s' => Contains s' substr
     end.

(** [detectLicenseType] tries to determine the license type from its
    content. *)
Definition detectLicenseType (content : gostring) : gostring :=
  let content := strings.ToLower content in
  if Contains content (str "mit license") then str "MIT License"
  else if Contains content (str "apache license") then str "Apache License"
  else if Contains content (str "gnu general public license")
          || Contains content (str "gpl") then str "GPL License"
  else if Contains content (str "bsd") then str "BSD License"
  else if Contains content (str "mozilla public license") then str "Mozilla Public License"
  else [].

Definition isNewline (c : ascii) : bool := Ascii.eqb c "010".

(** The description pattern behind the [#], after the greedy run of [\s]
    bytes ([given_back], last byte first): the rest of a line that is not
    empty, one or more line feeds, and as the group the line that follows,
    which is not empty.  While this fails the run gives back its last byte,
    and it keeps at least one. *)
Fixpoint paragraph_group (given_back rest : gostring) : option gostring :=
  match given_back with
  | [] => None
  | w :: given_back' =>
      let '(line, after) := span utils.notNewline rest in
      let '(feeds, body) := span isNewline after in
      match line, feeds, body with
      | _ :: _, _ :: _, _ :: _ => Some (span utils.notNewline body).1
      | _, _, _ => paragraph_group given_back' (w :: rest)
      end
  end.

(** A match of the description pattern whose [#] is the first byte of [s]. *)
Definition paragraph_at (s : gostring) : option gostring :=
  match s with
  | "#" :: s1 =>
      let '(ws, rest) := span utils.isSpaceClass s1 in
      paragraph_group (rev ws) rest
  | _ => None
  end.

(** The leftmost match of the description pattern in multi-line mode. *)
Fixpoint find_paragraph (at_line_start : bool) (s : gostring) : option gostring :=
  match s with
  | [] => None
  | c :: s' =>
      match (if at_line_start then paragraph_at s else None) with
      | Some g => Some g
      | None => find_paragraph (Ascii.eqb c "010") s'
      end
  end.

(** [strings.Split(s, "\n")] *)
Fixpoint splitLines (s : gostring) : list gostring :=
  match s with
  | [] => [[]]
  | c :: s' =>
      if isNewline c then [] :: splitLines s'
      else match splitLines s' with
           | l :: ls => (c :: l) :: ls
           | [] => [[c]]
           end
  end.

(** [strings.TrimSpace] on ASCII text. *)
Definition TrimSpace (s : gostring) : gostring :=
  rev (span utils.asciiSpace (rev (span utils.asciiSpace s).2)).2.

(** [if len(d) > 150 { d = d[:147] + "..." }] *)
Definition truncate (d : gostring) : gostring :=
  if (150 <? length d)%nat then take 147 d ++ str "..." else d.

(** The loop over the lines: the first line that is neither blank nor a
    heading. *)
Fixpoint firstTextLine (lines : list gostring) : gostring :=
  match lines with
  | [] => []
  | line :: lines' =>
      let line := TrimSpace line in
      if negb (bool_decide (line = [])) && negb (strings.HasPrefix line (str "#"))
      then truncate line
      else firstTextLine lines'
  end.

(** [extractDescriptionFromReadme] tries to get a short description from
    README. *)
Definition extractDescriptionFromReadme (content : gostring) : gostring :=
  match find_paragraph true content with
  | Some desc => truncate desc
  | None => firstTextLine (splitLines content)
  end.

(** What the walk over the repository fills in. *)
Record WalkData := mkWalkData {
  ReadmeContent : gostring;
  ReadmePath : gostring;
  MarkdownFiles : list (gostring * gostring);
  ImageFiles : list (gostring * gostring);
  License : gostring
}.

(** [m[key] = value] on a map kept as the list of its entries. *)
Fixpoint assign (m : list (gostring * gostring)) (key value : gostring)
  : list (gostring * gostring) :=
  match m with
  | [] => [(key, value)]
  | (k, v) :: m' =>
      if bool_decide (k = key) then (k, value) :: m' else (k, v) :: assign m' key value
  end.

(** A file the walk visits: its name [d.Name()], its path, its path
    relative to the repository, and what [os.ReadFile] gives for it
    ([None] for an error). *)
Record FileEntry := mkFileEntry {
  entryName : gostring;
  entryPath : gostring;
  entryRel : gostring;
  entryContent : option gostring
}.

(** The body of the walk callback for an entry that is not a directory;
    [None] is the error that ends the walk. *)
Definition visitFile (f : FileEntry) (rd : WalkData) : option WalkData :=
  let relativePath := entryRel f in
  let afterMarkdown :=
    if isMarkdownFile (entryName f) then
      match entryContent f with
      | None => None
      | Some content =>
          let files := assign (MarkdownFiles rd) relativePath content in
          if isReadmeFile (entryName f)
             && (bool_decide (ReadmePath rd = [])
                 || bool_decide (relativePath = str "README.md"))
          then Some (mkWalkData content relativePath files (ImageFiles rd) (License rd))
          else Some (mkWalkData (ReadmeContent rd) (ReadmePath rd) files
                                (ImageFiles rd) (License rd))
      end
    else Some rd in
  match afterMarkdown with
  | None => None
  | Some rd =>
      let rd :=
        if isImageFile (entryName f)
        then mkWalkData (ReadmeContent rd) (ReadmePath rd) (MarkdownFiles rd)
                        (assign (ImageFiles rd) relativePath (entryPath f)) (License rd)
        else rd in
      let rd :=
        if isLicenseFile (entryName f) && bool_decide (License rd = []) then
          match entryContent f with
          | Some content =>
              let licenseType := detectLicenseType content in
              mkWalkData (ReadmeContent rd) (ReadmePath rd) (MarkdownFiles rd)
                         (ImageFiles rd)
                         (if negb (bool_decide (licenseType = []))
                          then licenseType else str "License")
          | None => rd
          end
        else rd in
      Some rd
  end.


(** A directory tree whose directories can all be read; the entries of a
    directory are listed in the order in which [WalkDir] visits them. *)
#[warnings="-register-all"]
Inductive Node :=
| File (name : gostring) (content : option gostring)
| Dir (name : gostring) (entries : list Node).

Definition nodeName (n : Node) : gostring :=
  match n with File name _ => name | Dir name _ => name end.

(** The directories the callback answers with [SkipDir]. *)
Definition skipDir (name : gostring) : bool :=
  bool_decide (name = str ".git")
  || (bool_decide (name = str "node_modules") || bool_decide (name = str "vendor")
      || bool_decide (name = str ".github")).

(** [filepath.WalkDir] with the callback of [GetRepositoryData], on the
    node [n] found at [path], whose path relative to the repository is
    [rel] (["."] for the repository itself).  [WalkDir] joins the path of a
    directory with the name of each entry; for the names of a directory
    listing [filepath.Rel] gives the relative path of the directory joined
    with the name, and no error. *)
Fixpoint walk (n : Node) (path rel : gostring) (rd : WalkData) : option WalkData :=
  match n with
  | File name content => visitFile (mkFileEntry name path rel content) rd
  | Dir name entries =>
      if skipDir name then Some rd
      else
        (fix walkEntries (es : list Node) (rd : WalkData) : option WalkData :=
           match es with
           | [] => Some rd
           | e :: es' =>
               match walk e (filepath.Join [path; nodeName e])
                          (filepath.Join [rel; nodeName e]) rd with
               | None => None
               | Some rd' => walkEntries es' rd'
               end
           end) entries rd
  end.


(** The walk of [GetRepositoryData] over the repository found at
    [repoPath]. *)
Definition walkRepository (root : Node) (repoPath : gostring) : option WalkData :=
  walk root repoPath (str ".") (mkWalkData [] [] [] [] []).



End gitfiles.

(** ** The outcome of writing a page *)

(** The page of the document [d] can be written. *)
Definition pageWritable (writable : gostring -> bool) (d : gostring * gostring) : Prop :=
  writable (GetOutputPath d.1 (str "docs")) = true.

#[global] Instance pageWritable_dec writable d : Decision (pageWritable writable d).
Proof. unfold pageWritable. apply _. Defined.

(** * Properties *)

(** ** The library models on the vectors of Go's own tests *)

Example Clean_vectors :
  filepath.Clean (str "") = str "."
  /\ filepath.Clean (str "abc//def//ghi") = str "abc/def/ghi"
  /\ filepath.Clean (str "abc/./../def") = str "def"
  /\ filepath.Clean (str "abc/def/../../..") = str ".."
  /\ filepath.Clean (str "/abc/def/../../..") = str "/"
  /\ filepath.Clean (str "abc/def/../../../ghi/jkl/../../../mno") = str "../../mno"
  /\ filepath.Clean (str "/../abc") = str "/abc".
Proof. repeat split; vm_compute; reflexivity. Qed.

Example Join_vectors :
  filepath.Join [str "a"; str "b"] = str "a/b"
  /\ filepath.Join [str ""; str "b"] = str "b"
  /\ filepath.Join [str "a/"; str ""] = str "a"
  /\ filepath.Join [str "/"; str "a"; str "b"] = str "/a/b"
  /\ filepath.Join [str ""; str ""] = str "".
Proof. repeat split; vm_compute; reflexivity. Qed.

Example Base_Dir_Ext_vectors :
  filepath.Base (str "") = str "."
  /\ filepath.Base (str "////") = str "/"
  /\ filepath.Base (str "x/") = str "x"
  /\ filepath.Base (str "a/b/c.x") = str "c.x"
  /\ filepath.Dir (str "abc") = str "."
  /\ filepath.Dir (str "/foo") = str "/"
  /\ filepath.Dir (str "a/b/c.x") = str "a/b"
  /\ filepath.Ext (str "path.pb.go") = str ".go"
  /\ filepath.Ext (str "a.dir/b") = str "".
Proof. repeat split; vm_compute; reflexivity. Qed.

(** ** The exchange sort *)

Section ExchangeSortFacts.
Context {A : Type} (out_of_order : A -> A -> bool).

Hypothesis out_of_order_asym :
  forall x y, out_of_order x y = true -> out_of_order y x = false.
Hypothesis in_order_trans :
  forall x y z, in_order out_of_order x y -> in_order out_of_order y z -> in_order out_of_order x z.

Lemma in_order_refl x : in_order out_of_order x x.
Proof.
  unfold in_order. destruct (out_of_order x x) eqn:E; [|done].
  by rewrite (out_of_order_asym _ _ E) in E.
Qed.

Lemma sweep_length x rest : length (sweep out_of_order x rest).2 = length rest.
Proof.
  revert x. induction rest as [|y r IH]; intros x; simpl; [done|].
  destruct (out_of_order x y).
  - specialize (IH y). destruct (sweep out_of_order y r). simpl in *. lia.
  - specialize (IH x). destruct (sweep out_of_order x r). simpl in *. lia.
Qed.

Lemma sweep_perm x rest :
  (sweep out_of_order x rest).1 :: (sweep out_of_order x rest).2 ≡ₚ x :: rest.
Proof.
  revert x. induction rest as [|y r IH]; intros x; simpl; [done|].
  destruct (out_of_order x y).
  - specialize (IH y). destruct (sweep out_of_order y r) as [m r']. simpl in *.
    rewrite (Permutation_swap x m r'). by rewrite IH.
  - specialize (IH x). destruct (sweep out_of_order x r) as [m r']. simpl in *.
    rewrite (Permutation_swap y m r'), IH. apply Permutation_swap.
Qed.

Lemma sweep_min x rest :
  in_order out_of_order (sweep out_of_order x rest).1 x
  /\ Forall (in_order out_of_order (sweep out_of_order x rest).1) (sweep out_of_order x rest).2.
Proof.
  revert x. induction rest as [|y r IH]; intros x; simpl.
  - split; [apply in_order_refl | constructor].
  - destruct (out_of_order x y) eqn:E.
    + specialize (IH y). destruct (sweep out_of_order y r) as [m r']. simpl in *.
      destruct IH as [Hy Hr].
      assert (in_order out_of_order m x) by (eapply in_order_trans; [exact Hy|]; by apply out_of_order_asym).
      split; [done | by constructor].
    + specialize (IH x). destruct (sweep out_of_order x r) as [m r']. simpl in *.
      destruct IH as [Hx Hr].
      split; [done|]. constructor; [|done]. by eapply in_order_trans.
Qed.

(** The inner loop on the slice is [sweep] on the entry at [i] and the
    entries from [j] on. *)
Lemma inner_loop_sweep rest : forall pre x mid,
  inner_loop out_of_order (length rest) (length pre) (length pre + S (length mid))
             (pre ++ x :: mid ++ rest)
  = pre ++ (sweep out_of_order x rest).1 :: mid ++ (sweep out_of_order x rest).2.
Proof.
  induction rest as [|y r IH]; intros pre x mid; [done|].
  cbn [inner_loop length sweep].
  rewrite (list_lookup_middle pre (mid ++ y :: r) x (length pre)) by done.
  replace ((pre ++ x :: mid ++ y :: r) !! (length pre + S (length mid)))
    with (Some y).
  2:{ symmetry. rewrite lookup_app_r by lia.
      replace (length pre + S (length mid) - length pre) with (S (length mid)) by lia.
      simpl. by apply list_lookup_middle. }
  assert (Hnext : S (length pre + S (length mid))
                  = length pre + S (length (mid ++ [x]))).
  { rewrite length_app. simpl. lia. }
  destruct (out_of_order x y) eqn:E.
  - replace (<[length pre := y]> (<[length pre + S (length mid) := x]>
               (pre ++ x :: mid ++ y :: r)))
      with (pre ++ y :: (mid ++ [x]) ++ r).
    2:{ rewrite insert_app_r. simpl.
        rewrite (insert_app_r_alt mid) by lia. rewrite Nat.sub_diag. simpl.
        rewrite insert_app_r_alt by lia. rewrite Nat.sub_diag. simpl.
        by rewrite <- app_assoc. }
    rewrite Hnext, IH. destruct (sweep out_of_order y r) as [m r']. simpl.
    by rewrite <- app_assoc.
  - replace (pre ++ x :: mid ++ y :: r) with (pre ++ x :: (mid ++ [y]) ++ r)
      by (by rewrite <- app_assoc).
    replace (length pre + S (length (mid ++ [x])))
      with (length pre + S (length (mid ++ [y]))) in Hnext
      by (rewrite !length_app; simpl; lia).
    rewrite Hnext, IH. destruct (sweep out_of_order x r) as [m r']. simpl.
    by rewrite <- app_assoc.
Qed.

Lemma outer_loop_sorted n : forall pre rest,
  length rest = n ->
  exists s, outer_loop out_of_order n (length pre) (pre ++ rest) = pre ++ s
            /\ s ≡ₚ rest /\ StronglySorted (in_order out_of_order) s.
Proof.
  induction n as [|n IH]; intros pre rest Hlen.
  - destruct rest; [|done]. exists []. repeat split; [done | constructor].
  - destruct rest as [|x r]; [done|]. simpl in Hlen.
    cbn [outer_loop].
    replace (length (pre ++ x :: r) - S (length pre)) with (length r)
      by (rewrite length_app; simpl; lia).
    pose proof (inner_loop_sweep r pre x []) as Hin. simpl in Hin.
    replace (length pre + 1) with (S (length pre)) in Hin by lia.
    rewrite Hin.
    pose proof (sweep_perm x r) as Hp. pose proof (sweep_min x r) as [_ Hm].
    pose proof (sweep_length x r) as Hl.
    destruct (sweep out_of_order x r) as [m r']. simpl in *.
    destruct (IH (pre ++ [m]) r') as (s & Hs & Hps & Hss); [lia|].
    exists (m :: s). rewrite length_app in Hs. simpl in Hs.
    replace (length pre + 1) with (S (length pre)) in Hs by lia.
    rewrite <- app_assoc in Hs. simpl in Hs. rewrite <- app_assoc in Hs.
    split; [exact Hs|]. split.
    + by rewrite Hps.
    + constructor; [done|]. by rewrite Hps.
Qed.

Lemma exchange_sort_sorted a :
  StronglySorted (in_order out_of_order) (exchange_sort out_of_order a).
Proof.
  destruct (outer_loop_sorted (length a) [] a eq_refl) as (s & Hs & _ & Hss).
  unfold exchange_sort. simpl in Hs. by rewrite Hs.
Qed.

Lemma exchange_sort_perm a : exchange_sort out_of_order a ≡ₚ a.
Proof.
  destruct (outer_loop_sorted (length a) [] a eq_refl) as (s & Hs & Hp & _).
  unfold exchange_sort. simpl in Hs. by rewrite Hs.
Qed.

Lemma exchange_sort_adjacent a i x y :
  exchange_sort out_of_order a !! i = Some x ->
  exchange_sort out_of_order a !! S i = Some y ->
  in_order out_of_order x y.
Proof.
  pose proof (exchange_sort_sorted a) as Hs. revert Hs.
  generalize (exchange_sort out_of_order a). intros l Hs. revert i.
  induction Hs as [|z l Hs IH Hall]; intros i Hx Hy; [done|].
  destruct i as [|i]; simpl in *.
  - injection Hx as ->. rewrite Forall_forall in Hall. apply Hall.
    eapply list_elem_of_lookup_2. exact Hy.
  - by eapply IH.
Qed.

End ExchangeSortFacts.

(** ** The order of Go strings *)

Lemma ascii_compare_refl x : Ascii.compare x x = Eq.
Proof. unfold Ascii.compare. apply N.compare_refl. Qed.

Lemma string_compare_antisym a : forall b,
  string_compare b a = CompOpp (string_compare a b).
Proof.
  induction a as [|x a IH]; intros [|y b]; simpl; try done.
  rewrite (Ascii.compare_antisym y x).
  destruct (Ascii.compare x y); simpl; auto.
Qed.

Lemma string_gt_asym a b : string_gt a b = true -> string_gt b a = false.
Proof.
  unfold string_gt. rewrite (string_compare_antisym a b).
  by destruct (string_compare a b).
Qed.

Lemma string_le_trans a : forall b c,
  string_le a b -> string_le b c -> string_le a c.
Proof.
  unfold string_le, string_gt.
  induction a as [|x a IH]; intros [|y b] [|z c]; simpl; try done.
  unfold Ascii.compare.
  destruct (N.compare_spec (N_of_ascii x) (N_of_ascii y)) as [Hxy|Hxy|Hxy];
    destruct (N.compare_spec (N_of_ascii y) (N_of_ascii z)) as [Hyz|Hyz|Hyz];
    destruct (N.compare_spec (N_of_ascii x) (N_of_ascii z)) as [Hxz|Hxz|Hxz];
    try done; try lia.
  apply IH.
Qed.

Lemma string_le_refl a : string_le a a.
Proof.
  unfold string_le, string_gt. induction a as [|x a IH]; simpl; [done|].
  by rewrite ascii_compare_refl.
Qed.

(** [string_le] is the lexicographic order on bytes: [a <= b] exactly when
    [a] is a prefix of [b] or the first byte in which they differ is
    smaller in [a]. *)
Lemma string_le_lexicographic a : forall b,
  string_le a b <->
  (exists t, b = a ++ t)
  \/ (exists p x y a' b', a = p ++ x :: a' /\ b = p ++ y :: b'
                          /\ (nat_of_ascii x < nat_of_ascii y)%nat).
Proof.
  unfold string_le, string_gt.
  induction a as [|x a IH]; intros [|y b]; simpl.
  - split; [|done]. intros _. left. by exists [].
  - split; [|done]. intros _. left. by exists (y :: b).
  - split; [done|]. intros [[t Ht]|(p & x' & y' & a' & b' & _ & Hb & _)]; [done|].
    by destruct p.
  - unfold Ascii.compare, nat_of_ascii.
    destruct (N.compare_spec (N_of_ascii x) (N_of_ascii y)) as [Hxy|Hxy|Hxy].
    + assert (x = y) as ->.
      { rewrite <- (ascii_N_embedding x), <- (ascii_N_embedding y). by rewrite Hxy. }
      rewrite IH. split.
      * intros [[t ->]|(p & x' & y' & a' & b' & -> & -> & Hlt)].
        -- left. by exists t.
        -- right. by exists (y :: p), x', y', a', b'.
      * intros [[t Ht]|(p & x' & y' & a' & b' & Ha & Hb & Hlt)].
        -- left. exists t. by injection Ht.
        -- right. destruct p as [|c p]; simpl in *.
           ++ injection Ha as <- _. injection Hb as <- _. unfold nat_of_ascii in Hlt. lia.
           ++ injection Ha as _ ->. injection Hb as _ ->. by exists p, x', y', a', b'.
    + split; [|done]. intros _. right. exists [], x, y, a, b.
      split; [done|]. split; [done|]. lia.
    + split; [done|].
      intros [[t Ht]|(p & x' & y' & a' & b' & Ha & Hb & Hlt)].
      * injection Ht as -> _. lia.
      * destruct p as [|c p]; simpl in *.
        -- injection Ha as <- _. injection Hb as <- _. unfold nat_of_ascii in Hlt. lia.
        -- injection Ha as -> _. injection Hb as -> _. lia.
Qed.

(** ** C5: the navigation order *)

(** C5.  Whatever list of pages it is given, in particular the navigation
    entries collected once per site generation, [SortDocPagesByTitle]
    leaves it sorted by title in ascending byte order: of any two adjacent
    entries the first one's title is less than or equal to the second's. *)
Theorem SortDocPagesByTitle_adjacent (pages : list DocPage) (i : nat) (x y : DocPage) :
  SortDocPagesByTitle pages !! i = Some x ->
  SortDocPagesByTitle pages !! S i = Some y ->
  string_le (Title x) (Title y).
Proof.
  intros Hx Hy.
  eapply (exchange_sort_adjacent (fun a b => string_gt (Title a) (Title b)));
    [ | | exact Hx | exact Hy ].
  - intros a b. apply string_gt_asym.
  - intros a b c. apply string_le_trans.
Qed.

Lemma SortDocPagesByTitle_adjacent_witness :
  string_le (str "API") (str "Guide").
Proof.
  apply (SortDocPagesByTitle_adjacent
           [mkDocPage (str "Guide") (str "docs/guide.html") false;
            mkDocPage (str "api") (str "docs/api.html") false;
            mkDocPage (str "API") (str "docs/x/api.html") false]
           0 (mkDocPage (str "API") (str "docs/x/api.html") false)
             (mkDocPage (str "Guide") (str "docs/guide.html") false));
    reflexivity.
Defined.

Lemma SortDocPagesByTitle_perm pages : SortDocPagesByTitle pages ≡ₚ pages.
Proof.
  apply exchange_sort_perm.
  - intros a b. apply string_gt_asym.
  - intros a b c. apply string_le_trans.
Qed.

(** ** C7: the contributor list *)

Lemma commits_lt_asym (a b : git.Contributor) :
  (git.Commits a <? git.Commits b)%Z = true -> (git.Commits b <? git.Commits a)%Z = false.
Proof. lia. Qed.

Lemma commits_in_order_trans (a b c : git.Contributor) :
  (git.Commits a <? git.Commits b)%Z = false ->
  (git.Commits b <? git.Commits c)%Z = false ->
  (git.Commits a <? git.Commits c)%Z = false.
Proof. lia. Qed.

Lemma sortContributorsByCommits_perm cs : git.sortContributorsByCommits cs ≡ₚ cs.
Proof.
  apply exchange_sort_perm; [apply commits_lt_asym | apply commits_in_order_trans].
Qed.

(** C7, as the code has it.  The contributor list has at most 5 entries,
    it is ordered by descending commit count, and it consists of the first
    entries of a rearrangement of the contributor map (in whatever order the
    map was ranged over).  Nothing is promised about the order of entries
    with equal commit counts. *)
Theorem topContributors_at_most_5_descending (ranged : list git.Contributor) :
  (length (git.topContributors ranged) <= 5)%nat
  /\ (forall i x y,
        git.topContributors ranged !! i = Some x ->
        git.topContributors ranged !! S i = Some y ->
        (git.Commits y <= git.Commits x)%Z)
  /\ (exists sorted, sorted ≡ₚ ranged /\ git.topContributors ranged = take 5 sorted).
Proof.
  unfold git.topContributors.
  set (sorted := git.sortContributorsByCommits ranged).
  assert (Hadj : forall i x y, sorted !! i = Some x -> sorted !! S i = Some y ->
                               (git.Commits y <= git.Commits x)%Z).
  { intros i x y Hx Hy.
    pose proof (exchange_sort_adjacent
                  (fun a b => (git.Commits a <? git.Commits b)%Z)
                  commits_lt_asym commits_in_order_trans ranged i x y Hx Hy) as H.
    unfold in_order in H. lia. }
  destruct (5 <? length sorted)%nat eqn:E.
  - apply Nat.ltb_lt in E. split; [rewrite length_take; lia|]. split.
    + intros i x y Hx Hy.
      apply lookup_take_Some in Hx as [Hx _]. apply lookup_take_Some in Hy as [Hy _].
      by eapply Hadj.
    + exists sorted. split; [apply sortContributorsByCommits_perm | done].
  - apply Nat.ltb_ge in E. split; [done|]. split; [exact Hadj|].
    exists sorted. split; [apply sortContributorsByCommits_perm|].
    by rewrite take_ge.
Qed.

Lemma topContributors_at_most_5_descending_witness :
  let avatar := str "https://avatars.githubusercontent.com/u/0?v=4" in
  let ann := git.mkContributor (str "ann") (str "ann@example.org") 1 avatar in
  let bob := git.mkContributor (str "bob") (str "bob@example.org") 1 avatar in
  let cy := git.mkContributor (str "cy") (str "cy@example.org") 2 avatar in
  git.topContributors [ann; bob; cy] = [cy; bob; ann]
  /\ (length (git.topContributors [ann; bob; cy]) <= 5)%nat
  /\ (git.Commits bob <= git.Commits cy)%Z.
Proof.
  intros avatar ann bob cy. split; [reflexivity|].
  destruct (topContributors_at_most_5_descending [ann; bob; cy]) as (Hlen & Hdesc & _).
  split; [exact Hlen|].
  exact (Hdesc 0%nat cy bob eq_refl eq_refl).
Defined.

(** C7, as stated, fails.  Three authors are met in the order ann, bob, cy;
    ann and bob have one commit each, cy has two.  Even when the map is
    ranged over in exactly that order, the exchange of ann with cy puts bob
    in front of ann. *)
Lemma topContributors_ties_not_in_encounter_order :
  let log :=
    [git.mkCommit (str "ann") (str "ann@example.org");
     git.mkCommit (str "bob") (str "bob@example.org");
     git.mkCommit (str "cy") (str "cy@example.org");
     git.mkCommit (str "cy") (str "cy@example.org")] in
  map git.Name (git.processCommits log) = [str "ann"; str "bob"; str "cy"]
  /\ map git.Name (git.topContributors (git.processCommits log))
     = [str "cy"; str "bob"; str "ann"]
  /\ ~ git.ties_in_order (git.processCommits log)
         (git.topContributors (git.processCommits log)).
Proof.
  split; [reflexivity|]. split; [reflexivity|].
  intros H.
  destruct (H 1%nat 2%nat _ _ ltac:(lia) eq_refl eq_refl eq_refl)
    as (p & q & Hpq & Hp & Hq).
  destruct q as [|q]; [lia|].
  destruct q as [|[|q]]; vm_compute in Hq; try discriminate.
Qed.

(** ** Paths of documents *)

Lemma span_all p s : forallb p s = true -> span p s = (s, []).
Proof.
  induction s as [|c s IH]; simpl; [done|].
  intros [Hc Hs]%andb_true_iff. by rewrite Hc, IH.
Qed.

Lemma span_app p a c b :
  forallb p a = true -> p c = false -> span p (a ++ c :: b) = (a, c :: b).
Proof.
  intros Ha Hc. induction a as [|x a IH]; simpl in *.
  - by rewrite Hc.
  - apply andb_true_iff in Ha as [Hx Ha]. by rewrite Hx, IH.
Qed.

Lemma forallb_rev {A} (p : A -> bool) (l : list A) : forallb p (rev l) = forallb p l.
Proof.
  induction l as [|x l IH]; simpl; [done|].
  rewrite forallb_app, IH. simpl. rewrite andb_true_r. apply andb_comm.
Qed.

Lemma is_name_no_sep e : is_name e = true -> no_sep e = true.
Proof. unfold is_name. intros H. repeat (apply andb_true_iff in H as [H ?]). done. Qed.

Lemma is_name_inv e :
  is_name e = true -> e <> [] /\ e <> str "." /\ e <> str "..".
Proof.
  unfold is_name. intros H. repeat (apply andb_true_iff in H as [H ?]).
  repeat match goal with
         | H : negb (bool_decide _) = true |- _ =>
             apply negb_true_iff, bool_decide_eq_false in H
         end.
  done.
Qed.

Lemma Join_cons2 e e' es sep :
  strings.Join (e :: e' :: es) sep = e ++ sep ++ strings.Join (e' :: es) sep.
Proof. done. Qed.

Lemma Join_cons2_sep e e' es c :
  strings.Join (e :: e' :: es) [c] = e ++ c :: strings.Join (e' :: es) [c].
Proof. done. Qed.

Lemma Join_snoc es : forall e sep,
  es <> [] -> strings.Join (es ++ [e]) sep = strings.Join es sep ++ sep ++ e.
Proof.
  induction es as [|x es IH]; intros e sep Hne; [done|].
  destruct es as [|y es]; [done|].
  change ((x :: y :: es) ++ [e]) with (x :: y :: (es ++ [e])).
  rewrite !Join_cons2.
  change (y :: es ++ [e]) with ((y :: es) ++ [e]).
  rewrite IH by done. by rewrite <- !app_assoc.
Qed.

Lemma elements_name e : no_sep e = true -> filepath.elements e = [e].
Proof.
  unfold no_sep. induction e as [|c e IH]; simpl; [done|].
  intros [Hc He]%andb_true_iff. apply negb_true_iff in Hc.
  by rewrite Hc, IH.
Qed.

Lemma elements_app e s :
  no_sep e = true ->
  filepath.elements (e ++ filepath.Separator :: s) = e :: filepath.elements s.
Proof.
  unfold no_sep. induction e as [|c e IH]; simpl; [done|].
  intros [Hc He]%andb_true_iff. apply negb_true_iff in Hc.
  by rewrite Hc, IH.
Qed.

Lemma elements_Join es :
  es <> [] -> Forall (fun e => no_sep e = true) es ->
  filepath.elements (strings.Join es [filepath.Separator]) = es.
Proof.
  intros Hne Hall. induction Hall as [|e es He Hall IH]; [done|].
  destruct es as [|e' es].
  - by apply elements_name.
  - rewrite Join_cons2_sep, elements_app by done.
    by rewrite IH.
Qed.

Lemma clean_elems_names rooted es : forall out,
  Forall (fun e => is_name e = true) es ->
  filepath.clean_elems rooted out es = rev es ++ out.
Proof.
  induction es as [|e es IH]; intros out Hall; [done|].
  inversion Hall as [|? ? He Hes]; subst.
  destruct (is_name_inv e He) as (H1 & H2 & H3).
  simpl. rewrite !bool_decide_eq_false_2 by done.
  rewrite IH by done. by rewrite <- app_assoc.
Qed.

Lemma Join_names_head es :
  es <> [] -> Forall (fun e => is_name e = true) es ->
  exists c s, strings.Join es [filepath.Separator] = c :: s
              /\ filepath.IsPathSeparator c = false.
Proof.
  intros Hne Hall. destruct es as [|e es]; [done|].
  inversion Hall as [|? ? He Hes]; subst.
  destruct (is_name_inv e He) as (H1 & _).
  pose proof (is_name_no_sep e He) as Hs.
  destruct e as [|c e]; [done|]. unfold no_sep in Hs. simpl in Hs.
  apply andb_true_iff in Hs as [Hc _]. apply negb_true_iff in Hc.
  destruct es; simpl; eauto.
Qed.

Lemma Forall_is_name_no_sep es :
  Forall (fun e => is_name e = true) es -> Forall (fun e => no_sep e = true) es.
Proof. intros H. eapply Forall_impl; [exact H|]. intros e. apply is_name_no_sep. Qed.

Lemma Clean_unrooted path c s :
  path = c :: s -> filepath.IsPathSeparator c = false ->
  filepath.Clean path
  = match rev (filepath.clean_elems false [] (filepath.elements path)) with
    | [] => str "."
    | out => strings.Join out [filepath.Separator]
    end.
Proof.
  intros -> Hc. unfold filepath.Clean. cbv zeta. rewrite Hc.
  by destruct (rev _).
Qed.

(** [Clean] leaves a path made of proper names alone. *)
Lemma Clean_names es :
  es <> [] -> Forall (fun e => is_name e = true) es ->
  filepath.Clean (strings.Join es [filepath.Separator])
  = strings.Join es [filepath.Separator].
Proof.
  intros Hne Hall.
  destruct (Join_names_head es Hne Hall) as (c & s & Hj & Hc).
  rewrite (Clean_unrooted _ c s Hj Hc).
  rewrite (elements_Join es Hne (Forall_is_name_no_sep es Hall)).
  rewrite clean_elems_names by done.
  rewrite app_nil_r, rev_involutive.
  by destruct es.
Qed.

(** [Clean] drops the separator that ends a directory prefix. *)
Lemma Clean_names_slash es :
  es <> [] -> Forall (fun e => is_name e = true) es ->
  filepath.Clean (strings.Join es [filepath.Separator] ++ [filepath.Separator])
  = strings.Join es [filepath.Separator].
Proof.
  intros Hne Hall.
  destruct (Join_names_head es Hne Hall) as (c & s & Hj & Hc).
  rewrite (Clean_unrooted _ c (s ++ [filepath.Separator])) by (by rewrite ?Hj).
  replace (strings.Join es [filepath.Separator] ++ [filepath.Separator])
    with (strings.Join (es ++ [[]]) [filepath.Separator])
    by (rewrite Join_snoc by done; by rewrite app_nil_r).
  rewrite elements_Join.
  2:{ by destruct es. }
  2:{ apply Forall_app. split; [by apply Forall_is_name_no_sep | by repeat constructor]. }
  assert (Hc' : forall out, filepath.clean_elems false out (es ++ [[]]) = rev es ++ out).
  { clear -Hall. induction Hall as [|e es He Hall IH]; intros out; [done|].
    destruct (is_name_inv e He) as (H1 & H2 & H3).
    simpl. rewrite !bool_decide_eq_false_2 by done.
    rewrite IH. by rewrite <- app_assoc. }
  rewrite Hc', app_nil_r, rev_involutive.
  by destruct es.
Qed.

Lemma rev_Join_snoc dirs name :
  rev (relpath dirs name)
  = rev name ++ match dirs with
                | [] => []
                | _ => filepath.Separator :: rev (strings.Join dirs [filepath.Separator])
                end.
Proof.
  unfold relpath. destruct dirs as [|d dirs].
  - simpl. by rewrite app_nil_r.
  - rewrite (Join_snoc (d :: dirs)) by done.
    rewrite !rev_app_distr. simpl. by rewrite <- app_assoc.
Qed.

Lemma no_sep_rev e : no_sep (rev e) = no_sep e.
Proof. apply forallb_rev. Qed.

Lemma span_rev_name name tl :
  no_sep name = true ->
  span (fun c => negb (filepath.IsPathSeparator c))
       (rev name ++ match tl with [] => [] | _ => filepath.Separator :: tl end)
  = (rev name, match tl with [] => [] | _ => filepath.Separator :: tl end).
Proof.
  intros Hn. rewrite <- no_sep_rev in Hn. destruct tl.
  - rewrite app_nil_r. by apply span_all.
  - by apply span_app.
Qed.

Lemma Base_relpath dirs name :
  is_name name = true -> filepath.Base (relpath dirs name) = name.
Proof.
  intros Hn. destruct (is_name_inv name Hn) as (Hne & _).
  pose proof (is_name_no_sep name Hn) as Hs.
  unfold filepath.Base.
  destruct (relpath dirs name) eqn:E.
  { apply (f_equal (@rev ascii)) in E. rewrite rev_Join_snoc in E.
    destruct (rev name) eqn:E'; [|done].
    apply (f_equal (@rev ascii)) in E'. rewrite rev_involutive in E'. done. }
  rewrite <- E, rev_Join_snoc.
  assert (exists c r, rev name = c :: r /\ filepath.IsPathSeparator c = false)
    as (c & r & Hr & Hc).
  { rewrite <- no_sep_rev in Hs. destruct (rev name) as [|c r] eqn:E'.
    - apply (f_equal (@rev ascii)) in E'. rewrite rev_involutive in E'. done.
    - unfold no_sep in Hs. simpl in Hs. apply andb_true_iff in Hs as [Hc _].
      apply negb_true_iff in Hc. eauto. }
  assert (Hsp : forall t, span filepath.IsPathSeparator (rev name ++ t) = ([], rev name ++ t)).
  { intros t. rewrite Hr. simpl. by rewrite Hc. }
  rewrite Hsp. simpl snd.
  destruct dirs as [|d dirs].
  - rewrite app_nil_r, span_all by (by rewrite <- no_sep_rev in Hs).
    simpl. rewrite rev_involutive. by destruct name.
  - rewrite span_app; [| by rewrite <- no_sep_rev in Hs | done].
    simpl. rewrite rev_involutive. by destruct name.
Qed.

Lemma Dir_relpath dirs name :
  is_name name = true -> Forall (fun e => is_name e = true) dirs ->
  filepath.Dir (relpath dirs name)
  = match dirs with [] => str "." | _ => strings.Join dirs [filepath.Separator] end.
Proof.
  intros Hn Hd. pose proof (is_name_no_sep name Hn) as Hs.
  unfold filepath.Dir. rewrite rev_Join_snoc.
  destruct dirs as [|d dirs].
  - rewrite app_nil_r, span_all by (by rewrite no_sep_rev).
    reflexivity.
  - rewrite span_app; [| by rewrite no_sep_rev | done].
    cbn [snd].
    replace (rev (filepath.Separator :: rev (strings.Join (d :: dirs) [filepath.Separator])))
      with (strings.Join (d :: dirs) [filepath.Separator] ++ [filepath.Separator])
      by (cbn [rev]; by rewrite rev_involutive).
    by apply Clean_names_slash.
Qed.

Lemma span_eq p s : (span p s).1 ++ (span p s).2 = s.
Proof.
  induction s as [|c s IH]; simpl; [done|].
  destruct (p c); [|done]. destruct (span p s). simpl in *. by rewrite IH.
Qed.

(** The extension is a suffix of the name. *)
Lemma Ext_suffix s : exists stem, s = stem ++ filepath.Ext s.
Proof.
  unfold filepath.Ext.
  pose proof (span_eq (fun c => negb (filepath.IsPathSeparator c) && negb (Ascii.eqb c "."))
                      (rev s)) as Hsp.
  destruct (span _ (rev s)) as [tl rest]. simpl in Hsp.
  apply (f_equal (@rev ascii)) in Hsp. rewrite rev_involutive, rev_app_distr in Hsp.
  destruct rest as [|c r].
  - exists s. by rewrite app_nil_r.
  - destruct (Ascii.eqb c ".").
    + exists (rev r). rewrite <- Hsp. simpl. by rewrite <- app_assoc.
    + exists s. by rewrite app_nil_r.
Qed.

Lemma TrimSuffix_app stem suffix : strings.TrimSuffix (stem ++ suffix) suffix = stem.
Proof.
  unfold strings.TrimSuffix, strings.HasSuffix.
  rewrite length_app.
  replace (length stem + length suffix - length suffix) with (length stem) by lia.
  rewrite drop_app_length, take_app_length.
  rewrite bool_decide_eq_true_2 by done.
  by replace (length suffix <=? length stem + length suffix)%nat with true
    by (symmetry; apply Nat.leb_le; lia).
Qed.

Lemma TrimSuffix_Ext name :
  name = strings.TrimSuffix name (filepath.Ext name) ++ filepath.Ext name.
Proof.
  destruct (Ext_suffix name) as [stem Hs].
  rewrite Hs at 2. by rewrite TrimSuffix_app.
Qed.

Lemma is_name_html stem : no_sep stem = true -> is_name (stem ++ str ".html") = true.
Proof.
  intros Hs. unfold is_name.
  rewrite !andb_true_iff, !negb_true_iff, !bool_decide_eq_false.
  repeat split.
  - by destruct stem.
  - intros H. apply (f_equal length) in H. rewrite length_app in H. simpl in H. lia.
  - intros H. apply (f_equal length) in H. rewrite length_app in H. simpl in H. lia.
  - fold (no_sep (stem ++ str ".html")). unfold no_sep in *.
    rewrite forallb_app, Hs. reflexivity.
Qed.

Lemma Join_names_not_dot es :
  es <> [] -> Forall (fun e => is_name e = true) es ->
  strings.Join es [filepath.Separator] <> str ".".
Proof.
  intros Hne Hall Heq.
  apply (f_equal filepath.elements) in Heq.
  rewrite (elements_Join es Hne (Forall_is_name_no_sep es Hall)) in Heq.
  subst es. by inversion Hall.
Qed.

Lemma Join_flatten a dirs b :
  dirs <> [] ->
  strings.Join [a; strings.Join dirs [filepath.Separator]; b] [filepath.Separator]
  = strings.Join (a :: dirs ++ [b]) [filepath.Separator].
Proof.
  intros Hne. destruct dirs as [|d dirs]; [done|].
  change (a :: (d :: dirs) ++ [b]) with (a :: d :: (dirs ++ [b])).
  rewrite !Join_cons2_sep. f_equal. f_equal.
  change (d :: dirs ++ [b]) with ((d :: dirs) ++ [b]).
  by rewrite Join_snoc.
Qed.

(** ** C1: output paths *)

(** C1.  For the document [name] in the directory [dirs] below the snapshot
    root, [GetOutputPath] with the root ["docs"] replaces the extension of
    the file name by [.html]; a document at the root (its directory is
    ["."]) goes to [docs/<stem>.html], any other keeps its directory below
    [docs]. *)
Theorem GetOutputPath_docs (dirs : list gostring) (name : gostring) :
  Forall (fun e => is_name e = true) dirs ->
  is_name name = true ->
  let path := relpath dirs name in
  let stem := strings.TrimSuffix name (filepath.Ext name) in
  name = stem ++ filepath.Ext name
  /\ filepath.Dir path
     = match dirs with
       | [] => str "."
       | _ => strings.Join dirs [filepath.Separator]
       end
  /\ GetOutputPath path (str "docs")
     = match dirs with
       | [] => str "docs/" ++ stem ++ str ".html"
       | _ => str "docs/" ++ strings.Join dirs [filepath.Separator]
                ++ str "/" ++ stem ++ str ".html"
       end.
Proof.
  intros Hd Hn. cbv zeta.
  set (stem := strings.TrimSuffix name (filepath.Ext name)).
  pose proof (TrimSuffix_Ext name) as Hstem. fold stem in Hstem.
  assert (Hsn : no_sep stem = true).
  { pose proof (is_name_no_sep name Hn) as H. rewrite Hstem in H.
    unfold no_sep in *. rewrite forallb_app in H. by apply andb_true_iff in H as [H _]. }
  pose proof (is_name_html stem Hsn) as Hhtml.
  split; [exact Hstem|]. split; [by apply Dir_relpath|].
  unfold GetOutputPath. cbv zeta.
  rewrite !Base_relpath by done. rewrite Dir_relpath by done. fold stem.
  assert (Hdocs : is_name (str "docs") = true) by reflexivity.
  destruct dirs as [|d dirs].
  - rewrite bool_decide_eq_true_2 by done.
    change (filepath.Join [str "docs"; stem ++ str ".html"])
      with (filepath.Clean (strings.Join [str "docs"; stem ++ str ".html"]
                                         [filepath.Separator])).
    rewrite Clean_names; [done | done | by repeat constructor].
  - rewrite bool_decide_eq_false_2 by (by apply Join_names_not_dot).
    change (filepath.Join [str "docs"; ?d; ?b])
      with (filepath.Clean (strings.Join [str "docs"; d; b] [filepath.Separator])).
    rewrite Join_flatten by done.
    rewrite Clean_names.
    + change (str "docs" :: (d :: dirs) ++ [stem ++ str ".html"])
        with ((str "docs" :: d :: dirs) ++ [stem ++ str ".html"]).
      rewrite Join_snoc by done.
      rewrite Join_cons2_sep. rewrite <- !app_assoc. reflexivity.
    + done.
    + constructor; [done|]. apply Forall_app. split; [done | by repeat constructor].
Qed.

Lemma GetOutputPath_docs_witness :
  is_name (str "f.md") = true
  /\ GetOutputPath (str "d/f.md") (str "docs") = str "docs/d/f.html"
  /\ GetOutputPath (str "f.md") (str "docs") = str "docs/f.html".
Proof.
  split; [reflexivity|]. split.
  - exact (proj2 (proj2 (GetOutputPath_docs [str "d"] (str "f.md")
                           ltac:(by repeat constructor) eq_refl))).
  - exact (proj2 (proj2 (GetOutputPath_docs [] (str "f.md")
                           ltac:(by repeat constructor) eq_refl))).
Defined.

(** ** Scanning for references *)

Lemma bracket_at_groups allow g1 g2 rest :
  lacks "]" g1 = true -> (allow || negb (bool_decide (g1 = []))) = true ->
  lacks ")" g2 = true -> g2 <> [] ->
  regexp.bracket_at allow ("[" :: g1 ++ "]" :: "(" :: g2 ++ ")" :: rest)
  = Some (g1, g2).
Proof.
  intros H1 Ha H2 Hne. unfold regexp.bracket_at.
  rewrite (span_app (regexp.notByte "]") g1 "]" _ H1 eq_refl).
  rewrite Ha.
  rewrite (span_app (regexp.notByte ")") g2 ")" _ H2 eq_refl).
  by destruct g2.
Qed.

Lemma whole_app re g1 g2 rest :
  regexp.whole re g1 g2 ++ rest
  = match re with
    | regexp.LinkRe => "[" :: g1 ++ "]" :: "(" :: g2 ++ ")" :: rest
    | regexp.ImageRe => "!" :: "[" :: g1 ++ "]" :: "(" :: g2 ++ ")" :: rest
    end.
Proof. destruct re; unfold regexp.whole; rewrite <- !app_assoc; reflexivity. Qed.

Lemma is_match_inv re g1 g2 :
  is_match re g1 g2 = true ->
  lacks "]" g1 = true /\ lacks ")" g2 = true /\ g2 <> []
  /\ (re = regexp.LinkRe -> g1 <> []).
Proof.
  unfold is_match. intros H. repeat (apply andb_true_iff in H as [H ?]).
  repeat split; try done.
  - by apply negb_true_iff, bool_decide_eq_false in H0.
  - intros ->. by apply negb_true_iff, bool_decide_eq_false in H2.
Qed.

Lemma match_at_whole re g1 g2 rest :
  is_match re g1 g2 = true ->
  regexp.match_at re (regexp.whole re g1 g2 ++ rest) = Some (g1, g2).
Proof.
  intros (H1 & H2 & Hne & Hl)%is_match_inv.
  rewrite whole_app. destruct re; unfold regexp.match_at.
  - apply bracket_at_groups; try done.
    apply negb_true_iff, bool_decide_eq_false. by apply Hl.
  - by apply bracket_at_groups.
Qed.

Lemma whole_cons re g1 g2 :
  exists w, regexp.whole re g1 g2 = first_byte re :: w.
Proof. destruct re; eexists; reflexivity. Qed.

Lemma FindStringSubmatch_whole re g1 g2 :
  is_match re g1 g2 = true ->
  regexp.FindStringSubmatch re (regexp.whole re g1 g2)
  = [regexp.whole re g1 g2; g1; g2].
Proof.
  intros Hm. pose proof (match_at_whole re g1 g2 [] Hm) as H.
  rewrite app_nil_r in H.
  destruct (whole_cons re g1 g2) as [w Hw]. rewrite Hw in *.
  cbn [regexp.FindStringSubmatch]. by rewrite H, Hw.
Qed.

Lemma replace_skip re repl m : forall rest,
  regexp.replace_from re repl (length m) (m ++ rest)
  = regexp.replace_from re repl 0 rest.
Proof.
  induction m as [|c m IH]; intros rest; simpl.
  - by destruct rest.
  - apply IH.
Qed.

(** A match at the head of the text is replaced, and the scan goes on
    behind it. *)
Lemma replace_whole re repl g1 g2 rest :
  is_match re g1 g2 = true ->
  regexp.replace_from re repl 0 (regexp.whole re g1 g2 ++ rest)
  = repl (regexp.whole re g1 g2) ++ regexp.replace_from re repl 0 rest.
Proof.
  intros Hm. pose proof (match_at_whole re g1 g2 rest Hm) as H.
  destruct (whole_cons re g1 g2) as [w Hw]. rewrite Hw in *.
  simpl app in *. cbn [regexp.replace_from]. rewrite H, Hw.
  cbn [length]. rewrite Nat.sub_succ, Nat.sub_0_r.
  by rewrite replace_skip.
Qed.

Lemma match_at_first re c s :
  regexp.match_at re (c :: s) <> None -> c = first_byte re.
Proof.
  destruct re; simpl.
  - destruct (Ascii.eqb_spec c "[") as [->|Hc]; [done|].
    intros H. exfalso. apply H. unfold regexp.bracket_at.
    destruct c as [[] [] [] [] [] [] [] []]; try done.
  - intros H. destruct c as [[] [] [] [] [] [] [] []]; try done.
Qed.

(** Text in which no match starts is copied, and the scan goes on behind
    it. *)
Lemma replace_prefix re repl pre rest :
  starts_no_match re pre rest = true ->
  regexp.replace_from re repl 0 (pre ++ rest)
  = pre ++ regexp.replace_from re repl 0 rest.
Proof.
  induction pre as [|c pre IH]; [done|].
  cbn [starts_no_match]. change ((c :: pre) ++ rest) with (c :: pre ++ rest).
  cbn [regexp.replace_from].
  destruct (regexp.match_at re (c :: pre ++ rest)) as [[g1 g2]|]; [done|].
  intros H. by rewrite IH.
Qed.

(** No match starts in text without the first byte of the pattern. *)
Lemma lacks_starts_no_match re pre rest :
  lacks (first_byte re) pre = true -> starts_no_match re pre rest = true.
Proof.
  induction pre as [|c pre IH]; [done|]. simpl.
  intros [Hc Hp]%andb_true_iff.
  destruct (regexp.match_at re (c :: pre ++ rest)) as [[g1 g2]|] eqn:E.
  - assert (c = first_byte re) as ->
      by (apply (match_at_first re c (pre ++ rest)); by rewrite E).
    unfold regexp.notByte in Hc. by rewrite Ascii.eqb_refl in Hc.
  - by apply IH.
Qed.


(** An exclamation mark that no bracket follows starts no embed. *)
Lemma replace_no_embed_start repl q : forall c rest,
  no_embed_start (q ++ [c]) = true -> c <> "!" ->
  regexp.replace_from regexp.ImageRe repl 0 (q ++ c :: rest)
  = q ++ c :: regexp.replace_from regexp.ImageRe repl 0 rest.
Proof.
  induction q as [|x q IH]; intros c rest Hq Hc.
  - simpl. destruct c as [[] [] [] [] [] [] [] []]; try done.
  - assert (Hx : regexp.match_at regexp.ImageRe (x :: q ++ c :: rest) = None).
    { simpl. destruct (Ascii.eqb_spec x "!") as [->|Hx].
      - destruct q as [|y q]; simpl in *.
        + apply andb_true_iff in Hq as [Hq _]. apply negb_true_iff in Hq.
          unfold regexp.bracket_at. destruct (Ascii.eqb_spec c "[") as [->|Hb]; [done|].
          destruct c as [[] [] [] [] [] [] [] []]; try done.
        + apply andb_true_iff in Hq as [Hq _]. apply negb_true_iff in Hq.
          unfold regexp.bracket_at. destruct (Ascii.eqb_spec y "[") as [->|Hb]; [done|].
          destruct y as [[] [] [] [] [] [] [] []]; try done.
      - destruct x as [[] [] [] [] [] [] [] []]; try done. }
    change ((x :: q) ++ c :: rest) with (x :: q ++ c :: rest).
    cbn [regexp.replace_from]. rewrite Hx.
    rewrite IH; [done | | done].
    simpl in Hq. destruct (q ++ [c]) eqn:E; [by destruct q|].
    by apply andb_true_iff in Hq as [_ Hq].
Qed.

(** ** The replacement functions on one occurrence *)

Lemma rewriteLink_skip baseDir text target :
  is_match regexp.LinkRe text target = true ->
  strings.HasPrefix target (str "http") || strings.HasPrefix target (str "#")
  || isImageLink target || negb (isMarkdownLink target) = true ->
  rewriteLink baseDir (regexp.whole regexp.LinkRe text target)
  = regexp.whole regexp.LinkRe text target.
Proof.
  intros Hm H. unfold rewriteLink. rewrite FindStringSubmatch_whole by done.
  destruct (strings.HasPrefix target (str "http") || strings.HasPrefix target (str "#"));
    [done|].
  destruct (isImageLink target); [done|].
  destruct (isMarkdownLink target); [done|]. done.
Qed.

Lemma rewriteLink_markdown baseDir text target :
  is_match regexp.LinkRe text target = true ->
  strings.HasPrefix target (str "http") = false ->
  strings.HasPrefix target (str "#") = false ->
  isImageLink target = false ->
  isMarkdownLink target = true ->
  rewriteLink baseDir (regexp.whole regexp.LinkRe text target)
  = let idx := strings.IndexByte target "#" in
    let anchor := if (idx >? -1)%Z then drop (Z.to_nat idx) target else [] in
    let path := if (idx >? -1)%Z then take (Z.to_nat idx) target else target in
    str "[" ++ text ++ str "](" ++
      (str "../" ++ GetOutputPath (resolveLink baseDir path) (str "docs"))
      ++ anchor ++ str ")".
Proof.
  intros Hm H1 H2 H3 H4. unfold rewriteLink.
  rewrite FindStringSubmatch_whole by done.
  rewrite H1, H2, H3, H4. cbn [orb]. cbv zeta.
  by destruct (strings.IndexByte target "#" >? -1)%Z.
Qed.


Lemma rewriteImage_local baseDir alt target :
  is_match regexp.ImageRe alt target = true ->
  strings.HasPrefix target (str "http") = false ->
  rewriteImage baseDir (regexp.whole regexp.ImageRe alt target)
  = str "![" ++ alt ++ str "](" ++
      (str "../images/" ++ filepath.Base (resolveImage baseDir target)) ++ str ")".
Proof.
  intros Hm H. unfold rewriteImage. rewrite FindStringSubmatch_whole by done.
  by rewrite H.
Qed.

(** The link pass on an occurrence in its context. *)
Lemma ProcessRelativeLinks_occurrence pre text target post filePath owner repo :
  starts_no_match regexp.LinkRe pre (regexp.whole regexp.LinkRe text target ++ post) = true ->
  is_match regexp.LinkRe text target = true ->
  ProcessRelativeLinks (pre ++ regexp.whole regexp.LinkRe text target ++ post)
                       filePath owner repo
  = pre ++ rewriteLink (filepath.Dir filePath) (regexp.whole regexp.LinkRe text target)
        ++ ProcessRelativeLinks post filePath owner repo.
Proof.
  intros Hp Hm. unfold ProcessRelativeLinks, regexp.ReplaceAllStringFunc.
  rewrite replace_prefix by done.
  by rewrite replace_whole.
Qed.

(** The image pass on an embed in its context. *)
Lemma processImageLinks_occurrence pre alt target post filePath :
  starts_no_match regexp.ImageRe pre (regexp.whole regexp.ImageRe alt target ++ post) = true ->
  is_match regexp.ImageRe alt target = true ->
  processImageLinks (pre ++ regexp.whole regexp.ImageRe alt target ++ post) filePath
  = pre ++ rewriteImage (filepath.Dir filePath) (regexp.whole regexp.ImageRe alt target)
        ++ processImageLinks post filePath.
Proof.
  intros Hp Hm. unfold processImageLinks, regexp.ReplaceAllStringFunc.
  rewrite replace_prefix by done.
  by rewrite replace_whole.
Qed.

(** ** C2: a link to a sibling document *)

(** C2, as the code has it.  In the document [docs/intro.md] a link
    [[text](./guide.md)] met by the scan (no match starts in the text [pre]
    before it) is rewritten to [[text](../docs/docs/guide.html)]:
    the target is resolved against the document's directory to
    [docs/guide.md], mapped into the docs output tree as
    [docs/docs/guide.html], and prefixed with [../]. *)
Theorem ProcessRelativeLinks_sibling (pre text post owner repo : gostring) :
  starts_no_match regexp.LinkRe pre ((str "[" ++ text ++ str "](./guide.md)") ++ post) = true ->
  is_match regexp.LinkRe text (str "./guide.md") = true ->
  resolveLink (filepath.Dir (str "docs/intro.md")) (str "./guide.md") = str "docs/guide.md"
  /\ GetOutputPath (str "docs/guide.md") (str "docs") = str "docs/docs/guide.html"
  /\ ProcessRelativeLinks (pre ++ (str "[" ++ text ++ str "](./guide.md)") ++ post)
                          (str "docs/intro.md") owner repo
     = pre ++ (str "[" ++ text ++ str "](../docs/docs/guide.html)")
           ++ ProcessRelativeLinks post (str "docs/intro.md") owner repo.
Proof.
  intros Hp Hm. split; [reflexivity|]. split; [reflexivity|].
  change (str "[" ++ text ++ str "](./guide.md)")
    with (regexp.whole regexp.LinkRe text (str "./guide.md")).
  rewrite ProcessRelativeLinks_occurrence by done.
  rewrite rewriteLink_markdown by (done || reflexivity).
  reflexivity.
Qed.

Lemma ProcessRelativeLinks_sibling_witness :
  ProcessRelativeLinks (str "[Guide](./guide.md)") (str "docs/intro.md")
                       (str "go-i2p") (str "go-gh-page")
  = str "[Guide](../docs/docs/guide.html)".
Proof.
  pose proof (ProcessRelativeLinks_sibling [] (str "Guide") [] (str "go-i2p")
                (str "go-gh-page") eq_refl eq_refl) as (_ & _ & H).
  exact H.
Defined.

(** C2, as stated, fails: the target [./guide.md#setup] does not end in a
    markdown extension, so the link is left as it is; the target stated by
    the claim is not produced. *)
Lemma ProcessRelativeLinks_anchor_not_rewritten :
  ProcessRelativeLinks (str "[Guide](./guide.md#setup)") (str "docs/intro.md")
                       (str "go-i2p") (str "go-gh-page")
  = str "[Guide](./guide.md#setup)"
  /\ ProcessRelativeLinks (str "[Guide](./guide.md#setup)") (str "docs/intro.md")
                          (str "go-i2p") (str "go-gh-page")
     <> str "[Guide](../docs/guide.html#setup)".
Proof.
  assert (H : ProcessRelativeLinks (str "[Guide](./guide.md#setup)") (str "docs/intro.md")
                (str "go-i2p") (str "go-gh-page") = str "[Guide](./guide.md#setup)")
    by (vm_compute; reflexivity).
  split; [exact H|]. rewrite H. discriminate.
Qed.

(** ** C3: resolution of relative references *)

Lemma filepath_Join2 a b :
  a <> [] -> filepath.Join [a; b] = filepath.Clean (a ++ filepath.Separator :: b).
Proof.
  intros Ha. cbn [filepath.Join]. by rewrite bool_decide_eq_false_2.
Qed.

(** A reference [./x] in the document [name] of the directory [dirs] is
    the file [x] of that same directory. *)
Lemma resolveLink_dot_slash dirs name x :
  Forall (fun e => is_name e = true) dirs ->
  is_name name = true -> is_name x = true ->
  resolveLink (filepath.Dir (relpath dirs name)) (str "./" ++ x) = relpath dirs x.
Proof.
  intros Hd Hn Hx. rewrite Dir_relpath by done.
  unfold resolveLink.
  change (strings.HasPrefix (str "./" ++ x) (str "/")) with false.
  change (strings.HasPrefix (str "./" ++ x) (str "./")) with true. cbn [negb]. change (drop 2 (str "./" ++ x)) with x.
  destruct dirs as [|d dirs].
  - by rewrite bool_decide_eq_true_2.
  - rewrite bool_decide_eq_false_2 by (by apply Join_names_not_dot).
    cbn [negb].
    assert (Hne : strings.Join (d :: dirs) [filepath.Separator] <> []).
    { destruct (Join_names_head (d :: dirs)) as (c & s & -> & _); done. }
    rewrite filepath_Join2 by done.
    replace (strings.Join (d :: dirs) [filepath.Separator] ++ filepath.Separator :: x)
      with (relpath (d :: dirs) x)
      by (unfold relpath; by rewrite (Join_snoc (d :: dirs) x)).
    unfold relpath. apply Clean_names; [done|].
    apply Forall_app. split; [done | by repeat constructor].
Qed.

(** C3, as the code has it.  Resolving [./x.md] against the document
    [a/b/readme.md] yields [a/b/x.md], the file [x.md] of the document's own
    directory; [/x.md] yields [x.md] against any document; a link to
    [http://e.com] or to [#anchor] is left as it is in any document. *)
Theorem resolveLink_vectors :
  resolveLink (filepath.Dir (str "a/b/readme.md")) (str "./x.md") = str "a/b/x.md"
  /\ (forall doc, resolveLink (filepath.Dir doc) (str "/x.md") = str "x.md")
  /\ (forall doc text,
        is_match regexp.LinkRe text (str "http://e.com") = true ->
        rewriteLink (filepath.Dir doc) (regexp.whole regexp.LinkRe text (str "http://e.com"))
        = regexp.whole regexp.LinkRe text (str "http://e.com"))
  /\ (forall doc text,
        is_match regexp.LinkRe text (str "#anchor") = true ->
        rewriteLink (filepath.Dir doc) (regexp.whole regexp.LinkRe text (str "#anchor"))
        = regexp.whole regexp.LinkRe text (str "#anchor")).
Proof.
  split.
  { exact (resolveLink_dot_slash [str "a"; str "b"] (str "readme.md") (str "x.md")
             ltac:(by repeat constructor) eq_refl eq_refl). }
  split; [intros doc; reflexivity|].
  split; intros doc text Hm; by apply rewriteLink_skip.
Qed.

Lemma resolveLink_vectors_witness :
  rewriteLink (filepath.Dir (str "a/b/readme.md")) (str "[site](http://e.com)")
  = str "[site](http://e.com)"
  /\ rewriteLink (filepath.Dir (str "a/b/readme.md")) (str "[top](#anchor)")
     = str "[top](#anchor)".
Proof.
  destruct resolveLink_vectors as (_ & _ & Hhttp & Hanchor).
  split.
  - exact (Hhttp (str "a/b/readme.md") (str "site") eq_refl).
  - exact (Hanchor (str "a/b/readme.md") (str "top") eq_refl).
Defined.

(** C3, as stated, fails on its first vector: the directory of
    [a/b/readme.md] is [a/b], not [a]. *)
Lemma resolveLink_not_parent_directory :
  filepath.Dir (str "a/b/readme.md") = str "a/b"
  /\ resolveLink (filepath.Dir (str "a/b/readme.md")) (str "./x.md") <> str "a/x.md".
Proof.
  split; [reflexivity|].
  assert (H : resolveLink (filepath.Dir (str "a/b/readme.md")) (str "./x.md")
              = str "a/b/x.md") by (vm_compute; reflexivity).
  rewrite H. discriminate.
Qed.

(** ** C4: image embeds *)



(** ** C8: plain links to images *)

(** C8, as the code has it.  A plain link whose target has an image
    extension, met by the scan of the link pass (no match starts in the text
    [pre] before it), is left as it is by the link pass; the image pass
    leaves it as it is too, provided that no exclamation mark directly
    followed by an opening bracket occurs in the text up to the end of the
    link. *)
Theorem image_link_unchanged (pre text target post filePath owner repo : gostring) :
  starts_no_match regexp.LinkRe pre
                  ((str "[" ++ text ++ str "](" ++ target ++ str ")") ++ post) = true ->
  is_match regexp.LinkRe text target = true ->
  isImageLink target = true ->
  let link := str "[" ++ text ++ str "](" ++ target ++ str ")" in
  ProcessRelativeLinks (pre ++ link ++ post) filePath owner repo
  = pre ++ link ++ ProcessRelativeLinks post filePath owner repo
  /\ (no_embed_start (pre ++ link) = true ->
      processImageLinks (pre ++ link ++ post) filePath
      = pre ++ link ++ processImageLinks post filePath).
Proof.
  intros Hp Hm Hi link. split.
  - subst link.
    change (str "[" ++ text ++ str "](" ++ target ++ str ")")
      with (regexp.whole regexp.LinkRe text target).
    rewrite ProcessRelativeLinks_occurrence by done.
    rewrite rewriteLink_skip; [done | done |].
    rewrite Hi. by rewrite !orb_true_r.
  - intros Hq. unfold processImageLinks, regexp.ReplaceAllStringFunc.
    set (body := str "[" ++ text ++ str "](" ++ target).
    assert (Hl : link = body ++ [")"])
      by (subst link body; by rewrite <- !app_assoc).
    rewrite Hl in Hq |- *. rewrite app_assoc in Hq.
    replace (pre ++ (body ++ [")"]) ++ post) with ((pre ++ body) ++ ")" :: post)
      by (by rewrite <- !app_assoc).
    rewrite replace_no_embed_start by done.
    by rewrite <- !app_assoc.
Qed.

Lemma image_link_unchanged_witness :
  ProcessRelativeLinks (str "see [the logo](img/logo.png) here") (str "docs/a.md")
                       (str "go-i2p") (str "go-gh-page")
  = str "see [the logo](img/logo.png) here"
  /\ processImageLinks (str "see [the logo](img/logo.png) here") (str "docs/a.md")
     = str "see [the logo](img/logo.png) here".
Proof.
  pose proof (image_link_unchanged (str "see ") (str "the logo") (str "img/logo.png")
                (str " here") (str "docs/a.md") (str "go-i2p") (str "go-gh-page")
                eq_refl eq_refl eq_refl) as [H1 H2].
  split; [exact H1 | exact (H2 eq_refl)].
Defined.

(** C8, as stated, fails: the link pass takes [[a![b](x.png)] for a plain
    link with an image target and leaves it alone, but the image pass finds
    an embed inside it and rewrites its target. *)
Lemma image_link_rewritten_by_image_pass :
  is_match regexp.LinkRe (str "a![b") (str "x.png") = true
  /\ isImageLink (str "x.png") = true
  /\ ProcessRelativeLinks (str "[a![b](x.png)") (str "guide.md")
                          (str "go-i2p") (str "go-gh-page")
     = str "[a![b](x.png)"
  /\ processImageLinks (str "[a![b](x.png)") (str "guide.md")
     = str "[a![b](../images/x.png)"
  /\ processImageLinks (str "[a![b](x.png)") (str "guide.md") <> str "[a![b](x.png)".
Proof.
  assert (H : processImageLinks (str "[a![b](x.png)") (str "guide.md")
              = str "[a![b](../images/x.png)") by (vm_compute; reflexivity).
  repeat split; try (vm_compute; reflexivity).
  rewrite H. discriminate.
Qed.

(** ** C9: what the passes leave alone *)




(** ** Page composition *)

Section SiteFacts.
Variable GetTitleFromMarkdown : gostring -> gostring.
Variable PrettifyFilename : gostring -> gostring.
Variable renderMarkdown : gostring -> gostring.
Variable writable : gostring -> bool.
Variable repoData : git.RepositoryData.

Local Abbreviation collectDocsPages :=
  (generator.collectDocsPages GetTitleFromMarkdown PrettifyFilename).
Local Abbreviation entryOf := (generator.entryOf GetTitleFromMarkdown PrettifyFilename).
Local Abbreviation generateDocPage :=
  (generator.generateDocPage GetTitleFromMarkdown PrettifyFilename renderMarkdown
                             writable repoData).
Local Abbreviation generateDocPages :=
  (generator.generateDocPages GetTitleFromMarkdown PrettifyFilename renderMarkdown
                              writable repoData).
Local Abbreviation generateMainPage := (generator.generateMainPage renderMarkdown writable repoData).
Local Abbreviation GenerateSite :=
  (generator.GenerateSite GetTitleFromMarkdown PrettifyFilename renderMarkdown
                          writable repoData).
Local Abbreviation docPageFile :=
  (generator.docPageFile GetTitleFromMarkdown PrettifyFilename renderMarkdown repoData).
Local Abbreviation mainPageFile := (generator.mainPageFile renderMarkdown repoData).

Lemma collectDocsPages_spec range : forall acc,
  collectDocsPages range acc = acc ++ map entryOf (generator.rendered range).
Proof.
  induction range as [|[path content] range IH]; intros acc; simpl.
  - by rewrite app_nil_r.
  - unfold generator.rendered. rewrite filter_cons. simpl.
    destruct (generator.isReadmeFile (filepath.Base path)) eqn:E.
    + rewrite decide_False by done. apply IH.
    + rewrite decide_True by done. rewrite IH. simpl.
      by rewrite <- app_assoc.
Qed.

(** The marking loop on the last slice in memory. *)
Lemma mark_loop_spec out h rest : forall seen,
  generator.mark_loop (length rest) (length seen) (length h) out (h ++ [seen ++ rest])
  = h ++ [seen ++ generator.markActive out rest].
Proof.
  induction rest as [|pg rest IH]; intros seen; [done|].
  cbn [generator.mark_loop length].
  rewrite (list_lookup_middle h [] (seen ++ pg :: rest) (length h)) by done.
  rewrite (list_lookup_middle seen rest pg (length seen)) by done.
  assert (Hins : forall pg', <[length h := <[length seen := pg']> (seen ++ pg :: rest)]>
                              (h ++ [seen ++ pg :: rest])
                             = h ++ [(seen ++ [pg']) ++ rest]).
  { intros pg'. rewrite insert_app_r_alt by lia. rewrite Nat.sub_diag. simpl.
    rewrite insert_app_r_alt by lia. rewrite Nat.sub_diag. simpl.
    by rewrite <- app_assoc. }
  assert (Hlen : forall pg', S (length seen) = length (seen ++ [pg']))
    by (intros; rewrite length_app; simpl; lia).
  cbn [generator.markActive map].
  destruct (bool_decide (Path pg = out)).
  - rewrite Hins, (Hlen (mkDocPage (Title pg) (Path pg) true)), IH.
    by rewrite <- app_assoc.
  - replace (h ++ [seen ++ pg :: rest]) with (h ++ [(seen ++ [pg]) ++ rest])
      by (by rewrite <- app_assoc).
    rewrite (Hlen pg), IH. by rewrite <- app_assoc.
Qed.

(** Rendering a page allocates one slice and writes at most one file; no
    slice that existed before is changed. *)
Lemma generateDocPage_spec path content a st nav :
  generator.slices st !! a = Some nav ->
  let out := GetOutputPath path (str "docs") in
  generateDocPage path content a st
  = (if writable out then None else Some (str "failed to write " ++ out),
     generator.mkState
       (generator.slices st ++ [generator.markActive out nav])
       (generator.written st
          ++ if writable out then [docPageFile nav (path, content)] else [])).
Proof.
  intros Hnav out. unfold generator.generateDocPage, generator.make_slice.
  rewrite Hnav. change (default [] (Some nav)) with nav. cbv beta iota zeta.
  assert (Ha : (a < length (generator.slices st))%nat) by (by eapply lookup_lt_Some).
  set (h := generator.slices st) in *.
  set (zero := replicate (length nav) (mkDocPage [] [] false)).
  assert (Hcopy : generator.copy_slice (length h) a (h ++ [zero]) = h ++ [nav]).
  { unfold generator.copy_slice.
    rewrite (list_lookup_middle h [] zero (length h)) by done.
    rewrite (lookup_app_l_Some h [zero] a nav) by done.
    rewrite insert_app_r_alt by lia. rewrite Nat.sub_diag. simpl.
    unfold zero at 1 2. rewrite length_replicate.
    by rewrite firstn_all, drop_ge, app_nil_r by (unfold zero; rewrite length_replicate; lia). }
  rewrite Hcopy.
  rewrite (list_lookup_middle h [] nav (length h)) by done.
  change (default [] (Some nav)) with nav.
  pose proof (mark_loop_spec (GetOutputPath path (str "docs")) h nav []) as Hm.
  change (length (@nil DocPage)) with 0%nat in Hm.
  change ([] ++ nav) with nav in Hm.
  change ([] ++ generator.markActive ?o nav) with (generator.markActive o nav) in Hm.
  rewrite Hm.
  rewrite (list_lookup_middle h [] _ (length h)) by done.
  change (default [] (Some ?x)) with x.
  fold out. destruct (writable out); [reflexivity|].
  by rewrite app_nil_r.
Qed.

(** The rendering loop: the navigation slice is left as it is, one new
    slice is allocated per page, and the pages written are those of the
    documents that are not READMEs, in the order of the [range], up to the
    first failure. *)
Lemma generateDocPages_spec range : forall count st nav,
  generator.slices st !! 0%nat = Some nav ->
  exists k extra,
    (generateDocPages range 0 count st).2
    = generator.mkState
        (generator.slices st ++ extra)
        (generator.written st ++ map (docPageFile nav) (take k (generator.rendered range)))
    /\ match (generateDocPages range 0 count st).1 with
       | Some n => n = (count + Z.of_nat (length (generator.rendered range)))%Z
                   /\ k = length (generator.rendered range)
       | None => (k < length (generator.rendered range))%nat
       end.
Proof.
  induction range as [|[path content] range IH]; intros count st nav Hnav.
  - exists 0%nat, []. simpl. rewrite !app_nil_r. split; [by destruct st|]. split; [lia|done].
  - cbn [generator.generateDocPages]. unfold generator.rendered. rewrite filter_cons.
    fold (generator.rendered range). cbn [fst].
    destruct (generator.isReadmeFile (filepath.Base path)) eqn:E.
    + rewrite decide_False by done. by apply IH.
    + rewrite decide_True by done.
      rewrite (generateDocPage_spec path content 0 st nav Hnav). cbv zeta.
      destruct (writable (GetOutputPath path (str "docs"))).
      * set (st1 := generator.mkState _ _).
        destruct (IH (count + 1)%Z st1 nav) as (k & extra & Hst & Hres).
        { by apply lookup_app_l_Some. }
        exists (S k), (generator.markActive (GetOutputPath path (str "docs")) nav :: extra).
        split.
        -- rewrite Hst. subst st1. cbn [generator.slices generator.written take map].
           by rewrite <- !app_assoc.
        -- destruct (generateDocPages range 0 (count + 1) st1).1; cbn [length]; [|lia].
           destruct Hres as [-> ->]. split; [lia|done].
      * exists 0%nat, [generator.markActive (GetOutputPath path (str "docs")) nav].
        cbn [fst snd take map length]. split; [done | lia].
Qed.

Lemma GenerateSite_spec navRange pageRange :
  let nav := SortDocPagesByTitle (collectDocsPages navRange []) in
  exists k extra,
    (GenerateSite navRange pageRange).2
    = generator.mkState
        (nav :: extra)
        (if writable (str "index.html")
         then mainPageFile nav
                :: map (docPageFile nav) (take k (generator.rendered pageRange))
         else [])
    /\ forall r,
         (GenerateSite navRange pageRange).1 = Some r ->
         generator.DocsCount r = Z.of_nat (length (generator.rendered pageRange))
         /\ k = length (generator.rendered pageRange)
         /\ writable (str "index.html") = true.
Proof.
  intros nav. unfold generator.GenerateSite, generator.generateMainPage. fold nav.
  cbn [generator.slices generator.written lookup].
  change (default [] ([nav] !! 0%nat)) with nav.
  destruct (writable (str "index.html")).
  - set (st := generator.mkState _ _).
    destruct (generateDocPages_spec pageRange 0%Z st nav eq_refl)
      as (k & extra & Hst & Hres).
    exists k, extra.
    destruct (generateDocPages pageRange 0 0 st) as [[n|] st'] eqn:E;
      cbn [fst snd] in *; (split; [by rewrite Hst|]); intros r Hr; [|done].
    injection Hr as <-. destruct Hres as [-> ->]. cbn. split; [lia|done].
  - exists 0%nat, []. by split.
Qed.

Lemma written_inv navRange pageRange f :
  f ∈ generator.written (GenerateSite navRange pageRange).2 ->
  let nav := SortDocPagesByTitle (collectDocsPages navRange []) in
  f = mainPageFile nav
  \/ exists d, d ∈ generator.rendered pageRange /\ f = docPageFile nav d.
Proof.
  intros Hf nav.
  destruct (GenerateSite_spec navRange pageRange) as (k & extra & Hst & _).
  fold nav in Hst. rewrite Hst in Hf. cbn [generator.written] in Hf.
  destruct (writable (str "index.html")); [|by apply elem_of_nil in Hf].
  apply elem_of_cons in Hf as [->|Hf]; [by left|]. right.
  apply list_elem_of_fmap in Hf as (d & -> & Hd).
  exists d. split; [|done]. by eapply subseteq_take.
Qed.

Lemma rendered_elem_of range d :
  d ∈ generator.rendered range
  <-> d ∈ range /\ generator.isReadmeFile (filepath.Base d.1) = false.
Proof. unfold generator.rendered. rewrite list_elem_of_filter. tauto. Qed.

Lemma navigation_perm navRange :
  SortDocPagesByTitle (collectDocsPages navRange [])
  ≡ₚ map entryOf (generator.rendered navRange).
Proof. by rewrite SortDocPagesByTitle_perm, collectDocsPages_spec. Qed.

Lemma navigation_inactive navRange :
  Forall (fun e => IsActive e = false)
         (SortDocPagesByTitle (collectDocsPages navRange [])).
Proof.
  rewrite navigation_perm. apply Forall_forall. intros e He.
  apply list_elem_of_fmap in He as (d & -> & _). done.
Qed.

Lemma activeCount_inactive nav :
  Forall (fun e => IsActive e = false) nav -> generator.activeCount nav = 0%nat.
Proof.
  unfold generator.activeCount. induction 1 as [|e nav He Hnav IH]; [done|].
  rewrite filter_cons, decide_False by (by rewrite He). exact IH.
Qed.

Lemma markActive_elem out nav e :
  Forall (fun x => IsActive x = false) nav ->
  e ∈ generator.markActive out nav ->
  (IsActive e = true <-> Path e = out).
Proof.
  intros Hnav He. apply list_elem_of_fmap in He as (x & -> & Hx).
  rewrite Forall_forall in Hnav. specialize (Hnav x Hx).
  destruct (bool_decide (Path x = out)) eqn:E.
  - apply bool_decide_eq_true in E. by simpl.
  - apply bool_decide_eq_false in E. rewrite Hnav. split; [done | by intros ?].
Qed.

Lemma activeCount_markActive out nav :
  Forall (fun x => IsActive x = false) nav ->
  generator.activeCount (generator.markActive out nav)
  = length (filter (fun x => Path x = out) nav).
Proof.
  unfold generator.activeCount, generator.markActive.
  induction 1 as [|x nav Hx Hnav IH]; [done|].
  cbn [map]. rewrite !filter_cons.
  destruct (decide (Path x = out)) as [Heq|Hne].
  - rewrite bool_decide_eq_true_2 by done. simpl. by rewrite IH.
  - rewrite bool_decide_eq_false_2 by done.
    rewrite decide_False by (by rewrite Hx). exact IH.
Qed.

Lemma path_count_elem out nav e :
  e ∈ nav -> Path e = out -> (1 <= length (filter (fun x => Path x = out) nav))%nat.
Proof.
  intros He Hp.
  assert (Hf : e ∈ filter (fun x => Path x = out) nav) by (by apply list_elem_of_filter).
  destruct (filter _ nav); [by apply elem_of_nil in Hf | simpl; lia].
Qed.

Lemma path_count_NoDup out nav :
  NoDup (map Path nav) -> (length (filter (fun x => Path x = out) nav) <= 1)%nat.
Proof.
  induction nav as [|x nav IH]; intros Hnd; [simpl; lia|].
  cbn [map] in Hnd. apply NoDup_cons in Hnd as [Hx Hnd].
  rewrite filter_cons. destruct (decide (Path x = out)) as [Heq|Hne]; [|by apply IH].
  assert (Hnil : filter (fun y => Path y = out) nav = []).
  { destruct (filter (fun y => Path y = out) nav) as [|y l] eqn:E; [done|].
    exfalso. apply Hx.
    assert (Hy : y ∈ filter (fun y => Path y = out) nav) by (rewrite E; by left).
    apply list_elem_of_filter in Hy as [Hy1 Hy2].
    rewrite Heq, <- Hy1. by apply list_elem_of_fmap_2. }
  rewrite Hnil. simpl. lia.
Qed.

(** ** C6: the active navigation entry *)

(** C6, as the code has it.  The two loops range over the same documents.
    The navigation slice is the same before and after all pages have been
    rendered and none of its entries is active; the overview page is given
    that slice.  In the copy given to a documentation page, the active
    entries are exactly the entries whose path is the page's own output
    path, and there is at least one; there is exactly one when no two
    navigation entries share an output path. *)
Theorem navigation_active_entries (navRange pageRange : list (gostring * gostring)) :
  pageRange ≡ₚ navRange ->
  let nav := SortDocPagesByTitle (collectDocsPages navRange []) in
  let st := (GenerateSite navRange pageRange).2 in
  generator.slices st !! 0%nat = Some nav
  /\ generator.activeCount nav = 0%nat
  /\ (forall f, f ∈ generator.written st ->
                generator.template f = str "main" ->
                generator.DocsPages (generator.data f) = nav)
  /\ (forall f, f ∈ generator.written st ->
                generator.template f = str "doc" ->
                let pages := generator.DocsPages (generator.data f) in
                let own := generator.CurrentPage (generator.data f) in
                generator.fileName f = own
                /\ (forall e, e ∈ pages -> (IsActive e = true <-> Path e = own))
                /\ (1 <= generator.activeCount pages)%nat
                /\ (NoDup (map Path nav) -> generator.activeCount pages = 1%nat)).
Proof.
  intros Hperm nav st.
  pose proof (navigation_inactive navRange) as Hin. fold nav in Hin.
  destruct (GenerateSite_spec navRange pageRange) as (k & extra & Hst & _).
  fold nav st in Hst.
  split; [by rewrite Hst|]. split; [by apply activeCount_inactive|]. split.
  - intros f Hf Ht. apply written_inv in Hf as [->|(d & _ & ->)]; [done|].
    discriminate Ht.
  - intros f Hf Ht. apply written_inv in Hf as [->|(d & Hd & ->)]; [discriminate Ht|].
    fold nav. cbn [generator.docPageFile generator.data generator.DocsPages
                     generator.CurrentPage generator.fileName].
    cbv zeta. split; [done|]. split; [intros e; by apply markActive_elem|].
    rewrite activeCount_markActive by done.
    assert (Hone : (1 <= length (filter (fun x => Path x = GetOutputPath d.1 (str "docs"))
                                        nav))%nat).
    { apply (path_count_elem _ nav (entryOf d)); [|done].
      unfold nav. rewrite navigation_perm. apply list_elem_of_fmap_2.
      apply rendered_elem_of. apply rendered_elem_of in Hd as [Hd ?].
      split; [|done]. by rewrite <- Hperm. }
    split; [exact Hone|]. intros Hnd.
    pose proof (path_count_NoDup (GetOutputPath d.1 (str "docs")) nav Hnd). lia.
Qed.

(** ** C10: README files *)

(** C10.  A document whose file name starts with [readme.] in any case is
    one for which [isReadmeFile] holds of its base name.  The navigation is
    a rearrangement of the entries of the documents for which it does not
    hold; every page written is the overview page or the page of such a
    document; and the document count of a successful run is the number of
    such documents, each of which then has its page. *)
Theorem readme_documents_skipped (navRange pageRange : list (gostring * gostring)) :
  let nav := SortDocPagesByTitle (collectDocsPages navRange []) in
  let res := GenerateSite navRange pageRange in
  (forall filename,
      generator.isReadmeFile filename = true
      <-> exists rest, strings.ToLower filename = str "readme." ++ rest)
  /\ nav ≡ₚ map entryOf
              (filter (fun d => generator.isReadmeFile (filepath.Base d.1) = false) navRange)
  /\ generator.slices res.2 !! 0%nat = Some nav
  /\ (forall f, f ∈ generator.written res.2 ->
        f = mainPageFile nav
        \/ exists d, d ∈ pageRange
                     /\ generator.isReadmeFile (filepath.Base d.1) = false
                     /\ f = docPageFile nav d)
  /\ (forall r, res.1 = Some r ->
        generator.DocsCount r
        = Z.of_nat (length (filter (fun d => generator.isReadmeFile (filepath.Base d.1) = false)
                                   pageRange))
        /\ generator.written res.2
           = mainPageFile nav
               :: map (docPageFile nav)
                    (filter (fun d => generator.isReadmeFile (filepath.Base d.1) = false)
                            pageRange)).
Proof.
  intros nav res.
  destruct (GenerateSite_spec navRange pageRange) as (k & extra & Hst & Hres).
  fold nav res in Hst, Hres.
  split; [|split; [|split; [|split]]].
  - intros filename. unfold generator.isReadmeFile, strings.HasPrefix.
    rewrite andb_true_iff, Nat.leb_le, bool_decide_eq_true. split.
    + intros [Hl Ht]. exists (drop (length (str "readme.")) (strings.ToLower filename)).
      rewrite <- Ht at 1. by rewrite take_drop.
    + intros [rest ->]. split; [rewrite length_app; lia | by rewrite take_app_length].
  - apply navigation_perm.
  - by rewrite Hst.
  - intros f Hf. apply written_inv in Hf as [->|(d & Hd & ->)]; [by left|]. right.
    apply rendered_elem_of in Hd as [Hd Hr]. by exists d.
  - intros r Hr. destruct (Hres r Hr) as (Hn & -> & Hw).
    split; [exact Hn|]. rewrite Hst, Hw. cbn [generator.written].
    by rewrite firstn_all.
Qed.

End SiteFacts.

Lemma navigation_active_entries_witness :
  let repo := git.mkRepositoryData (str "go-i2p") (str "go-gh-page") (str "# Hi")
                                   (str "README.md") [] in
  let navRange := [(str "guide.md", str "Guide"); (str "api/index.md", str "API")] in
  let pageRange := [(str "api/index.md", str "API"); (str "guide.md", str "Guide")] in
  let nav := SortDocPagesByTitle
               (generator.collectDocsPages (fun c => c) (fun c => c) navRange []) in
  let page := generator.docPageFile (fun c => c) (fun c => c) (fun c => c) repo nav
                                    (str "guide.md", str "Guide") in
  pageRange ≡ₚ navRange
  /\ generator.fileName page = str "docs/guide.html"
  /\ generator.activeCount (generator.DocsPages (generator.data page)) = 1%nat.
Proof.
  intros repo navRange pageRange nav page.
  assert (Hperm : pageRange ≡ₚ navRange) by apply Permutation_swap.
  split; [exact Hperm|]. split; [reflexivity|].
  pose proof (navigation_active_entries (fun c => c) (fun c => c) (fun c => c)
                (fun _ => true) repo navRange pageRange Hperm) as (_ & _ & _ & H).
  assert (Hin : page ∈ generator.written
                  (generator.GenerateSite (fun c => c) (fun c => c) (fun c => c)
                     (fun _ => true) repo navRange pageRange).2).
  { vm_compute. repeat constructor. }
  destruct (H page Hin eq_refl) as (_ & _ & _ & Hone).
  apply Hone. apply (bool_decide_unpack _). vm_compute. exact I.
Defined.

(** C6, as stated, fails.  The documents [a.md] and [a.markdown] have the
    same output path [docs/a.html], so the navigation has two entries with
    that path, and the page rendered for either document has two active
    entries. *)
Lemma navigation_two_active_entries :
  let repo := git.mkRepositoryData (str "go-i2p") (str "go-gh-page") (str "# Hi")
                                   (str "README.md") [] in
  let docs := [(str "a.md", str "First"); (str "a.markdown", str "Second")] in
  let st := (generator.GenerateSite (fun c => c) (fun c => c) (fun c => c)
               (fun _ => true) repo docs docs).2 in
  NoDup (map fst docs)
  /\ exists f, f ∈ generator.written st
               /\ generator.template f = str "doc"
               /\ generator.fileName f = str "docs/a.html"
               /\ map IsActive (generator.DocsPages (generator.data f)) = [true; true]
               /\ generator.activeCount (generator.DocsPages (generator.data f)) <> 1%nat.
Proof.
  intros repo docs st. split.
  { apply (bool_decide_unpack _). vm_compute. exact I. }
  exists (generator.docPageFile (fun c => c) (fun c => c) (fun c => c) repo
            (SortDocPagesByTitle
               (generator.collectDocsPages (fun c => c) (fun c => c) docs []))
            (str "a.md", str "First")).
  split; [vm_compute; repeat constructor|].
  repeat split; try reflexivity.
  vm_compute. discriminate.
Qed.

Lemma readme_documents_skipped_witness :
  let repo := git.mkRepositoryData (str "go-i2p") (str "go-gh-page") (str "# Hi")
                                   (str "README.md") [] in
  let docs := [(str "README.md", str "# Hi"); (str "docs/README.md", str "# Inner");
               (str "docs/a.md", str "# A")] in
  let res := generator.GenerateSite (fun c => c) (fun c => c) (fun c => c)
               (fun _ => true) repo docs docs in
  generator.isReadmeFile (filepath.Base (str "docs/README.md")) = true
  /\ option_map generator.DocsCount res.1 = Some 1%Z
  /\ map generator.fileName (generator.written res.2)
     = [str "index.html"; str "docs/docs/a.html"].
Proof.
  intros repo docs res. split; [reflexivity|]. split; [reflexivity|].
  pose proof (readme_documents_skipped (fun c => c) (fun c => c) (fun c => c)
                (fun _ => true) repo docs docs) as (_ & _ & _ & _ & H).
  destruct (H (generator.mkGenerationResult 1) eq_refl) as [_ Hw].
  fold res in Hw. rewrite Hw. reflexivity.
Defined.

(** * Further properties *)

(** ** The commit loop *)

Lemma increment_emails m email :
  map git.Email (git.increment m email) = map git.Email m.
Proof.
  unfold git.increment. induction m as [|c m IH]; [done|]. simpl.
  rewrite IH. by destruct (bool_decide (git.Email c = email)).
Qed.

Lemma exists_key_elem m email :
  git.exists_key m email = true <-> email ∈ map git.Email m.
Proof.
  unfold git.exists_key. rewrite existsb_exists, list_elem_of_fmap. split.
  - intros (c & Hc & He). apply bool_decide_eq_true in He.
    exists c. split; [done|]. by apply list_elem_of_In.
  - intros (c & -> & Hc). exists c. split; [by apply list_elem_of_In|].
    by apply bool_decide_eq_true.
Qed.

Lemma track_emails m c :
  map git.Email (git.track m c)
  = if git.exists_key m (git.AuthorEmail c) then map git.Email m
    else map git.Email m ++ [git.AuthorEmail c].
Proof.
  unfold git.track. rewrite increment_emails.
  destruct (git.exists_key m (git.AuthorEmail c)); simpl; [done|].
  by rewrite map_app.
Qed.

Lemma track_NoDup m c :
  NoDup (map git.Email m) -> NoDup (map git.Email (git.track m c)).
Proof.
  intros Hnd. rewrite track_emails.
  destruct (git.exists_key m (git.AuthorEmail c)) eqn:E; [done|].
  apply NoDup_app. split; [done|]. split; [|apply NoDup_singleton].
  intros e He Hin. apply list_elem_of_singleton in Hin as ->.
  apply exists_key_elem in He. congruence.
Qed.

Lemma fold_track_NoDup log : forall m,
  NoDup (map git.Email m) -> NoDup (map git.Email (fold_left git.track log m)).
Proof.
  induction log as [|c log IH]; intros m Hnd; [done|].
  simpl. apply IH. by apply track_NoDup.
Qed.

Lemma lookupEmail_increment_same m email :
  gitlog.lookupEmail (git.increment m email) email
  = (fun c => git.mkContributor (git.Name c) (git.Email c) (git.Commits c + 1)
                                (git.AvatarURL c))
      <$> gitlog.lookupEmail m email.
Proof.
  unfold gitlog.lookupEmail, git.increment.
  induction m as [|c m IH]; [done|]. cbn [map].
  rewrite !filter_cons.
  destruct (decide (git.Email c = email)) as [He|He].
  - rewrite bool_decide_eq_true_2 by done. simpl. by rewrite decide_True.
  - rewrite bool_decide_eq_false_2 by done. by rewrite decide_False.
Qed.

Lemma lookupEmail_increment_other m email e :
  e <> email -> gitlog.lookupEmail (git.increment m email) e = gitlog.lookupEmail m e.
Proof.
  intros Hne. unfold gitlog.lookupEmail, git.increment.
  induction m as [|c m IH]; [done|]. cbn [map].
  rewrite !filter_cons.
  destruct (bool_decide (git.Email c = email)) eqn:E; simpl.
  - apply bool_decide_eq_true in E.
    rewrite !decide_False by congruence. exact IH.
  - destruct (decide (git.Email c = e)); [done | exact IH].
Qed.

Lemma lookupEmail_None m e :
  gitlog.lookupEmail m e = None <-> git.exists_key m e = false.
Proof.
  unfold gitlog.lookupEmail, git.exists_key.
  induction m as [|c m IH]; [done|]. rewrite filter_cons. simpl.
  destruct (decide (git.Email c = e)) as [He|He].
  - rewrite bool_decide_eq_true_2 by done. done.
  - rewrite bool_decide_eq_false_2 by done. exact IH.
Qed.

Lemma lookupEmail_snoc m x e :
  gitlog.lookupEmail (m ++ [x]) e
  = match gitlog.lookupEmail m e with
    | Some c => Some c
    | None => if decide (git.Email x = e) then Some x else None
    end.
Proof.
  unfold gitlog.lookupEmail. rewrite filter_app.
  destruct (filter _ m) as [|c l]; simpl; [|done].
  rewrite filter_cons. by destruct (decide (git.Email x = e)).
Qed.

(** One commit, seen from one key of the map. *)
Lemma lookupEmail_track m c e :
  gitlog.lookupEmail (git.track m c) e
  = if decide (git.AuthorEmail c = e)
    then Some match gitlog.lookupEmail m e with
              | Some x => git.mkContributor (git.Name x) (git.Email x)
                                            (git.Commits x + 1) (git.AvatarURL x)
              | None => git.mkContributor (git.AuthorName c) e 1
                          (str "https://avatars.githubusercontent.com/u/0?v=4")
              end
    else gitlog.lookupEmail m e.
Proof.
  unfold git.track.
  destruct (decide (git.AuthorEmail c = e)) as [<-|Hne].
  - rewrite lookupEmail_increment_same.
    destruct (git.exists_key m (git.AuthorEmail c)) eqn:E; cbn [negb].
    + destruct (gitlog.lookupEmail m (git.AuthorEmail c)) eqn:El; [done|].
      apply lookupEmail_None in El. congruence.
    + rewrite lookupEmail_snoc.
      rewrite (proj2 (lookupEmail_None m (git.AuthorEmail c)) E).
      cbn [git.Email]. by rewrite decide_True.
  - rewrite lookupEmail_increment_other by done.
    destruct (git.exists_key m (git.AuthorEmail c)); cbn [negb]; [done|].
    rewrite lookupEmail_snoc. cbn [git.Email].
    rewrite decide_False by done. by destruct (gitlog.lookupEmail m e).
Qed.

(** The whole log, seen from one key of the map. *)
Lemma lookupEmail_fold log e : forall m,
  gitlog.lookupEmail (fold_left git.track log m) e
  = match gitlog.lookupEmail m e with
    | Some x =>
        Some (git.mkContributor (git.Name x) (git.Email x)
                (git.Commits x + Z.of_nat (gitlog.commitsBy e log)) (git.AvatarURL x))
    | None =>
        (fun name =>
           git.mkContributor name e (Z.of_nat (gitlog.commitsBy e log))
             (str "https://avatars.githubusercontent.com/u/0?v=4"))
          <$> gitlog.firstName e log
    end.
Proof.
  induction log as [|c log IH]; intros m.
  - simpl. destruct (gitlog.lookupEmail m e) as [x|]; [|done].
    destruct x. simpl. by rewrite Z.add_0_r.
  - cbn [fold_left]. rewrite IH, lookupEmail_track.
    unfold gitlog.commitsBy, gitlog.firstName. rewrite filter_cons.
    destruct (decide (git.AuthorEmail c = e)) as [He|He].
    + destruct (gitlog.lookupEmail m e) as [x|]; cbn [git.Name git.Email git.Commits
        git.AvatarURL length head fmap option_fmap option_map].
      * do 2 f_equal. lia.
      * do 2 f_equal. lia.
    + done.
Qed.

Lemma lookupEmail_elem m c :
  NoDup (map git.Email m) -> c ∈ m -> gitlog.lookupEmail m (git.Email c) = Some c.
Proof.
  unfold gitlog.lookupEmail. induction m as [|x m IH]; intros Hnd Hc.
  - by apply elem_of_nil in Hc.
  - cbn [map] in Hnd. apply NoDup_cons in Hnd as [Hx Hnd].
    rewrite filter_cons. apply elem_of_cons in Hc as [->|Hc].
    + by rewrite decide_True.
    + rewrite decide_False; [by apply IH|].
      intros Heq. apply Hx. rewrite Heq. by apply list_elem_of_fmap_2.
Qed.

Lemma lookupEmail_Some m e c :
  gitlog.lookupEmail m e = Some c -> c ∈ m /\ git.Email c = e.
Proof.
  unfold gitlog.lookupEmail. intros H.
  assert (Hc : c ∈ filter (fun c => git.Email c = e) m).
  { destruct (filter _ m); [done|]. injection H as ->. by left. }
  by apply list_elem_of_filter in Hc as [? ?].
Qed.

(** X1.  The contributor map has one entry per e-mail address: the
    addresses of its entries are pairwise distinct, and an address has an
    entry exactly when some commit of the history carries it. *)
Theorem processCommits_one_entry_per_email (log : list git.Commit) :
  NoDup (map git.Email (git.processCommits log))
  /\ forall email,
       email ∈ map git.Email (git.processCommits log)
       <-> email ∈ map git.AuthorEmail log.
Proof.
  split; [apply fold_track_NoDup; constructor|].
  intros email. unfold git.processCommits.
  rewrite <- exists_key_elem.
  pose proof (lookupEmail_fold log email []) as H. cbn [gitlog.lookupEmail filter head] in H.
  change (head []) with (@None git.Contributor) in H.
  unfold gitlog.firstName in H.
  split.
  - intros Hk. destruct (filter (fun c => git.AuthorEmail c = email) log) as [|c l] eqn:E.
    + simpl in H. apply lookupEmail_None in H. congruence.
    + assert (Hc : c ∈ filter (fun c => git.AuthorEmail c = email) log)
        by (rewrite E; by left).
      apply list_elem_of_filter in Hc as [<- Hc]. by apply list_elem_of_fmap_2.
  - intros (c & -> & Hc)%list_elem_of_fmap.
    destruct (git.exists_key _ _) eqn:E; [done|].
    apply lookupEmail_None in E. rewrite E in H.
    assert (Hf : c ∈ filter (fun c0 => git.AuthorEmail c0 = git.AuthorEmail c) log)
      by (by apply list_elem_of_filter).
    destruct (filter _ log); [by apply elem_of_nil in Hf | done].
Qed.

(** X2.  Every entry of the contributor map counts the commits of its
    address, and carries the author name of the first commit met with that
    address (the newest one, as the history is iterated); names of later
    commits with the same address are ignored. *)
Theorem processCommits_counts_and_names (log : list git.Commit) (c : git.Contributor) :
  c ∈ git.processCommits log ->
  git.Commits c = Z.of_nat (gitlog.commitsBy (git.Email c) log)
  /\ (0 < git.Commits c)%Z
  /\ gitlog.firstName (git.Email c) log = Some (git.Name c).
Proof.
  intros Hc.
  pose proof (lookupEmail_elem _ c (fold_track_NoDup log [] (NoDup_nil_2)) Hc) as Hl.
  unfold git.processCommits in Hl. rewrite lookupEmail_fold in Hl.
  cbn [gitlog.lookupEmail filter head] in Hl.
  change (head []) with (@None git.Contributor) in Hl. cbv beta iota in Hl.
  unfold gitlog.firstName, gitlog.commitsBy in *.
  destruct (filter (fun c0 => git.AuthorEmail c0 = git.Email c) log) as [|c0 l]; [done|].
  simpl in Hl. injection Hl as <-. simpl. repeat split; lia.
Qed.

Lemma processCommits_counts_and_names_witness :
  let log := [git.mkCommit (str "Ann B.") (str "ann@example.org");
              git.mkCommit (str "bob") (str "bob@example.org");
              git.mkCommit (str "ann") (str "ann@example.org")] in
  let ann := git.mkContributor (str "Ann B.") (str "ann@example.org") 2
               (str "https://avatars.githubusercontent.com/u/0?v=4") in
  ann ∈ git.processCommits log
  /\ gitlog.commitsBy (str "ann@example.org") log = 2%nat
  /\ gitlog.firstName (str "ann@example.org") log = Some (str "Ann B.").
Proof.
  intros log ann.
  assert (Hin : ann ∈ git.processCommits log) by (vm_compute; repeat constructor).
  split; [exact Hin|]. split; [reflexivity|].
  exact (proj2 (proj2 (processCommits_counts_and_names log ann Hin))).
Defined.

Lemma forEachCommit_contributors log : forall rd,
  gitlog.contributors (fold_left gitlog.visitCommit log rd)
  = fold_left git.track (map fst log) (gitlog.contributors rd).
Proof. induction log as [|c log IH]; intros rd; [done|]. simpl. by rewrite IH. Qed.

Lemma forEachCommit_count log : forall rd,
  gitlog.CommitCount (fold_left gitlog.visitCommit log rd)
  = (gitlog.CommitCount rd + Z.of_nat (length log))%Z.
Proof.
  induction log as [|c log IH]; intros rd; simpl; [lia|]. rewrite IH. simpl. lia.
Qed.

Lemma totalCommits_app m1 m2 :
  gitlog.totalCommits (m1 ++ m2) = (gitlog.totalCommits m1 + gitlog.totalCommits m2)%Z.
Proof.
  unfold gitlog.totalCommits. induction m1 as [|c m1 IH]; simpl; [done|]. rewrite IH. lia.
Qed.

Lemma totalCommits_increment (m : list git.Contributor) e :
  gitlog.totalCommits (git.increment m e)
  = (gitlog.totalCommits m
     + Z.of_nat (length (filter (fun c => git.Email c = e) m)))%Z.
Proof.
  unfold gitlog.totalCommits, git.increment.
  induction m as [|c m IH]; [done|]. cbn [map foldr]. rewrite IH, filter_cons.
  destruct (decide (git.Email c = e)) as [He|He].
  - rewrite bool_decide_eq_true_2 by done. cbn [git.Commits length]. lia.
  - rewrite bool_decide_eq_false_2 by done. lia.
Qed.

Lemma email_count_NoDup (m : list git.Contributor) e :
  NoDup (map git.Email m) ->
  length (filter (fun c => git.Email c = e) m)
  = if git.exists_key m e then 1%nat else 0%nat.
Proof.
  unfold git.exists_key. induction m as [|c m IH]; intros Hnd; [done|].
  cbn [map] in Hnd. apply NoDup_cons in Hnd as [Hc Hnd].
  rewrite filter_cons. cbn [existsb].
  destruct (decide (git.Email c = e)) as [He|He].
  - rewrite bool_decide_eq_true_2 by done. cbn [orb length]. rewrite IH by done.
    destruct (existsb _ m) eqn:E; [|done].
    exfalso. apply Hc. rewrite He. by apply exists_key_elem.
  - rewrite bool_decide_eq_false_2 by done. by apply IH.
Qed.

Lemma totalCommits_track (m : list git.Contributor) c :
  NoDup (map git.Email m) ->
  gitlog.totalCommits (git.track m c) = (gitlog.totalCommits m + 1)%Z.
Proof.
  intros Hnd. unfold git.track. rewrite totalCommits_increment.
  destruct (git.exists_key m (git.AuthorEmail c)) eqn:E; cbn [negb].
  - rewrite email_count_NoDup, E by done. lia.
  - rewrite totalCommits_app, filter_app, length_app, email_count_NoDup, E by done.
    rewrite filter_cons. cbn [git.Email]. rewrite decide_True by done. simpl. lia.
Qed.

Lemma totalCommits_fold log : forall m,
  NoDup (map git.Email m) ->
  gitlog.totalCommits (fold_left git.track log m)
  = (gitlog.totalCommits m + Z.of_nat (length log))%Z.
Proof.
  induction log as [|c log IH]; intros m Hnd; simpl; [lia|].
  rewrite IH by (by apply track_NoDup). rewrite totalCommits_track by done. lia.
Qed.

(** X3.  The commit count of the repository is the number of commits of
    the history, and the commit counts of the contributors add up to it:
    every commit is credited to exactly one contributor. *)
Theorem forEachCommit_counts (log : list (git.Commit * gitlog.Time)) :
  gitlog.CommitCount (gitlog.forEachCommit log) = Z.of_nat (length log)
  /\ gitlog.contributors (gitlog.forEachCommit log) = git.processCommits (map fst log)
  /\ gitlog.totalCommits (gitlog.contributors (gitlog.forEachCommit log))
     = gitlog.CommitCount (gitlog.forEachCommit log).
Proof.
  unfold gitlog.forEachCommit.
  rewrite forEachCommit_count, forEachCommit_contributors. cbn [gitlog.CommitCount
    gitlog.contributors]. split; [lia|]. split; [done|].
  rewrite totalCommits_fold by constructor. rewrite length_map. done.
Qed.

Lemma lastCommit_fold log : forall rd,
  Forall (fun c => (0 < c.2)%Z) log ->
  (0 <= gitlog.LastCommitDate rd)%Z ->
  let last := gitlog.LastCommitDate (fold_left gitlog.visitCommit log rd) in
  (gitlog.LastCommitDate rd <= last)%Z
  /\ Forall (fun c => (c.2 <= last)%Z) log
  /\ (last = gitlog.LastCommitDate rd \/ last ∈ map snd log).
Proof.
  induction log as [|c log IH]; intros rd Hpos Hrd.
  - simpl. split; [lia|]. split; [constructor | by left].
  - inversion Hpos as [|? ? Hc Hlog]; subst. cbn [fold_left].
    set (rd1 := gitlog.visitCommit rd c).
    assert (H1 : gitlog.LastCommitDate rd1
                 = Z.max (gitlog.LastCommitDate rd) c.2).
    { subst rd1. unfold gitlog.visitCommit, gitlog.IsZero, gitlog.After.
      cbn [gitlog.LastCommitDate].
      unfold gitlog.Time in *.
      destruct (gitlog.LastCommitDate rd =? 0)%Z eqn:E1;
        destruct (gitlog.LastCommitDate rd <? c.2)%Z eqn:E2; cbn [orb]; lia. }
    destruct (IH rd1 Hlog ltac:(lia)) as (Hle & Hall & Hin).
    cbv zeta. split; [lia|]. split.
    + constructor; [lia | exact Hall].
    + rewrite H1 in Hin. destruct Hin as [Hin|Hin].
      * destruct (Z.max_spec (gitlog.LastCommitDate rd) c.2) as [[_ Hm]|[_ Hm]].
        -- right. rewrite Hin, Hm. by left.
        -- left. by rewrite Hin, Hm.
      * right. cbn [map]. by right.
Qed.

(** X4.  When every commit is dated after the zero instant, the last
    commit date is the date of the latest commit of the history, in
    whatever order the commits are iterated; for an empty history it stays
    the zero instant. *)
Theorem forEachCommit_last_date (log : list (git.Commit * gitlog.Time)) :
  Forall (fun c => (0 < c.2)%Z) log ->
  let last := gitlog.LastCommitDate (gitlog.forEachCommit log) in
  Forall (fun c => (c.2 <= last)%Z) log
  /\ (log = [] -> last = 0%Z)
  /\ (log <> [] -> last ∈ map snd log).
Proof.
  intros Hpos last.
  destruct (lastCommit_fold log (gitlog.mkCommitData 0%Z 0%Z []) Hpos ltac:(simpl; lia))
    as (Hle & Hall & Hin).
  fold (gitlog.forEachCommit log) in Hle, Hall, Hin. fold last in Hle, Hall, Hin.
  split; [exact Hall|]. split.
  - intros ->. reflexivity.
  - intros Hne. destruct Hin as [Hin|Hin]; [|done].
    cbn [gitlog.LastCommitDate] in Hin.
    destruct log as [|c log]; [done|].
    inversion Hpos; subst. inversion Hall; subst. unfold gitlog.Time in *. lia.
Qed.

Lemma forEachCommit_last_date_witness :
  let log := [(git.mkCommit (str "ann") (str "ann@example.org"), 300%Z);
              (git.mkCommit (str "bob") (str "bob@example.org"), 500%Z);
              (git.mkCommit (str "ann") (str "ann@example.org"), 100%Z)] in
  Forall (fun c => (0 < c.2)%Z) log
  /\ gitlog.LastCommitDate (gitlog.forEachCommit log) = 500%Z
  /\ Forall (fun c => (c.2 <= 500)%Z) log.
Proof.
  intros log.
  assert (Hpos : Forall (fun c => (0 < c.2)%Z) log) by (repeat constructor).
  split; [exact Hpos|]. split; [reflexivity|].
  exact (proj1 (forEachCommit_last_date log Hpos)).
Defined.

(** X5.  The contributors kept are the top ones: the list is cut from a
    rearrangement of the contributor map, and no contributor left out has
    more commits than a contributor kept.  When the map has at most five
    entries, all of them are kept. *)
Theorem topContributors_are_top (ranged : list git.Contributor) :
  exists dropped,
    git.topContributors ranged ++ dropped ≡ₚ ranged
    /\ (forall x y, x ∈ git.topContributors ranged -> y ∈ dropped ->
                    (git.Commits y <= git.Commits x)%Z)
    /\ ((length ranged <= 5)%nat -> dropped = []).
Proof.
  unfold git.topContributors.
  set (sorted := git.sortContributorsByCommits ranged).
  pose proof (sortContributorsByCommits_perm ranged) as Hp. fold sorted in Hp.
  pose proof (exchange_sort_sorted (fun a b => (git.Commits a <? git.Commits b)%Z)
                commits_lt_asym commits_in_order_trans ranged) as Hs.
  fold (git.sortContributorsByCommits ranged) in Hs. fold sorted in Hs.
  destruct (5 <? length sorted)%nat eqn:E.
  - exists (drop 5 sorted). rewrite take_drop. split; [done|]. split.
    + intros x y Hx Hy. rewrite <- (take_drop 5 sorted) in Hs.
      pose proof (StronglySorted_app_1_elem_of _ _ _ x y Hs Hx Hy) as H.
      unfold in_order in H. lia.
    + intros Hlen. apply Nat.ltb_lt in E. rewrite Hp in E. lia.
  - exists []. rewrite app_nil_r. split; [done|]. split; [|done].
    intros x y _ Hy. by apply elem_of_nil in Hy.
Qed.

(** ** Titles *)

Example title_vectors :
  utils.GetTitleFromMarkdown (str "# Hi

World") = str "Hi"
  /\ utils.GetTitleFromMarkdown (str "intro
## Sub
#  Top  
# Next") = str "Top  "
  /\ utils.GetTitleFromMarkdown (str "## Only sub headings") = str ""
  /\ utils.GetTitleFromMarkdown (str "#

Below") = str "Below"
  /\ utils.GetTitleFromMarkdown (str "# ") = str ""
  /\ utils.GetTitleFromMarkdown (str "#  ") = str " "
  /\ utils.PrettifyFilename (str "getting-started_guide.md") = str "Getting Started Guide"
  /\ utils.PrettifyFilename (str "--API__reference-.markdown") = str "API Reference"
  /\ utils.PrettifyFilename (str "README") = str "README".
Proof. repeat split; vm_compute; reflexivity. Qed.

Lemma span_fst_forallb p s : forallb p (span p s).1 = true.
Proof.
  induction s as [|c s IH]; simpl; [done|].
  destruct (p c) eqn:E; [|done]. destruct (span p s). simpl in *. by rewrite E, IH.
Qed.

Lemma heading_group_spec given_back : forall rest g,
  utils.heading_group given_back rest = Some g ->
  g <> [] /\ forallb utils.notNewline g = true.
Proof.
  induction given_back as [|w gb IH]; intros rest g; [done|].
  cbn [utils.heading_group].
  destruct rest as [|c rest']; [apply IH|].
  destruct (utils.notNewline c) eqn:E; [|apply IH].
  intros [= <-]. split; [|exact (span_fst_forallb utils.notNewline (c :: rest'))].
  cbn [span]. rewrite E. by destruct (span utils.notNewline rest').
Qed.

Lemma find_heading_spec s : forall b g,
  utils.find_heading b s = Some g -> g <> [] /\ forallb utils.notNewline g = true.
Proof.
  induction s as [|c s IH]; intros b g; [done|]. cbn [utils.find_heading].
  destruct (if b then utils.heading_at (c :: s) else None) as [g'|] eqn:E.
  - intros [= <-]. destruct b; [|done]. unfold utils.heading_at in E.
    destruct (Ascii.eqb_spec c "#") as [->|Hc].
    + destruct (span utils.isSpaceClass s) as [ws rest]. by eapply heading_group_spec.
    + destruct c as [[] [] [] [] [] [] [] []]; done.
  - apply IH.
Qed.

Lemma find_heading_no_hash s : forall b,
  lacks "#" s = true -> utils.find_heading b s = None.
Proof.
  induction s as [|c s IH]; intros b; [done|]. cbn [utils.find_heading lacks forallb].
  intros [Hc Hs]%andb_true_iff.
  replace (if b then utils.heading_at (c :: s) else None) with (@None gostring).
  - by apply IH.
  - destruct b; [|done]. unfold regexp.notByte in Hc.
    destruct c as [[] [] [] [] [] [] [] []]; done.
Qed.

(** X6.  The title taken from a document never contains a line feed, and
    a heading that is found is never empty: the empty title, on which the
    callers fall back to the file name, means that the document has no
    first-level heading.  A document without any [#] has none. *)
Theorem GetTitleFromMarkdown_one_line (content : gostring) :
  lacks "010" (utils.GetTitleFromMarkdown content) = true
  /\ (utils.GetTitleFromMarkdown content = []
      <-> utils.find_heading true content = None)
  /\ (lacks "#" content = true -> utils.GetTitleFromMarkdown content = []).
Proof.
  unfold utils.GetTitleFromMarkdown.
  destruct (utils.find_heading true content) as [g|] eqn:E.
  - destruct (find_heading_spec _ _ _ E) as [Hne Hnl].
    split; [exact Hnl|]. split; [by split|].
    intros H. by rewrite find_heading_no_hash in E.
  - by repeat split.
Qed.

(** X7.  A document that starts with a [#], white space and a heading
    text on one line has that text as its title, trailing white space
    included. *)
Theorem GetTitleFromMarkdown_top_heading (ws t rest : gostring) (x : ascii) :
  ws <> [] ->
  forallb utils.isSpaceClass ws = true ->
  utils.isSpaceClass x = false ->
  lacks "010" t = true ->
  (rest = [] \/ exists rest', rest = "010" :: rest') ->
  utils.GetTitleFromMarkdown (str "#" ++ ws ++ (x :: t) ++ rest) = x :: t.
Proof.
  intros Hne Hws Hx Ht Hrest. unfold utils.GetTitleFromMarkdown.
  change (str "#" ++ ws ++ (x :: t) ++ rest) with ("#" :: ws ++ x :: t ++ rest).
  cbn [utils.find_heading utils.heading_at].
  rewrite (span_app utils.isSpaceClass ws x (t ++ rest) Hws Hx).
  assert (Hnx : utils.notNewline x = true).
  { unfold utils.notNewline. destruct (Ascii.eqb_spec x "010") as [->|]; done. }
  assert (Hg : utils.heading_group (rev ws) (x :: t ++ rest) = Some (x :: t)).
  { destruct (rev ws) as [|w gb] eqn:E.
    - apply (f_equal (@rev ascii)) in E. rewrite rev_involutive in E. done.
    - cbn [utils.heading_group]. rewrite Hnx. f_equal.
      cbn [span]. rewrite Hnx.
      assert (Hsp : span utils.notNewline (t ++ rest) = (t, rest)).
      { destruct Hrest as [->|[rest' ->]].
        - rewrite app_nil_r. by apply span_all.
        - by apply span_app. }
      by rewrite Hsp. }
  by rewrite Hg.
Qed.

Lemma GetTitleFromMarkdown_top_heading_witness :
  utils.GetTitleFromMarkdown (str "#  User Guide 
## Install
# Other") = str "User Guide ".
Proof.
  exact (GetTitleFromMarkdown_top_heading (str "  ") (str "ser Guide ")
           (str "
## Install
# Other") "U" ltac:(done) eq_refl eq_refl eq_refl
           (or_intror (ex_intro _ _ eq_refl))).
Defined.

(** ** File names as titles *)

Lemma Fields_words (P : ascii -> bool) s :
  forallb (fun c => utils.asciiSpace c || P c) s = true ->
  Forall (fun w => w <> []
                   /\ forallb (fun c => negb (utils.asciiSpace c) && P c) w = true)
         (utils.Fields s).
Proof.
  induction s as [|c s IH]; [constructor|].
  cbn [forallb utils.Fields]. intros [Hc Hs]%andb_true_iff.
  specialize (IH Hs).
  destruct (utils.asciiSpace c) eqn:Ec; [exact IH|]. simpl in Hc.
  assert (Hw : forall w, forallb (fun c => negb (utils.asciiSpace c) && P c) w = true ->
                         forallb (fun c => negb (utils.asciiSpace c) && P c) (c :: w) = true).
  { intros w Hw. cbn [forallb]. by rewrite Ec, Hc, Hw. }
  destruct s as [|c' s']; [repeat constructor; [done | by apply Hw]|].
  destruct (utils.asciiSpace c').
  - constructor; [|exact IH]. split; [done | by apply Hw].
  - destruct (utils.Fields (c' :: s')) as [|w ws].
    + repeat constructor; [done | by apply Hw].
    + inversion IH as [|? ? [Hw1 Hw2] Hws]; subst.
      constructor; [|exact Hws]. split; [done | by apply Hw].
Qed.

Lemma ToUpperByte_titleWord c w :
  negb (utils.asciiSpace c) && negb (Ascii.eqb c "-") && negb (Ascii.eqb c "_") = true ->
  forallb (fun x => negb (utils.asciiSpace x) && negb (Ascii.eqb x "-")
                    && negb (Ascii.eqb x "_")) w = true ->
  utils.titleWord (utils.ToUpperByte c ++ w) = true.
Proof.
  intros Hc Hw. unfold utils.ToUpperByte.
  destruct (nat_of_ascii c <? 128)%nat eqn:E128.
  - revert Hc. destruct c as [[] [] [] [] [] [] [] []]; try done;
      vm_compute; intros _; exact Hw || (cbn; exact Hw) || (simpl; by rewrite Hw).
  - unfold utils.titleWord. cbn -[nat_of_ascii utils.asciiSpace Ascii.eqb].
    rewrite Hw. reflexivity.
Qed.

Lemma ReplaceByte_clean name :
  forallb (fun c => utils.asciiSpace c
                    || (negb (Ascii.eqb c "-") && negb (Ascii.eqb c "_")))
          (utils.ReplaceByte (utils.ReplaceByte name "-" " ") "_" " ") = true.
Proof.
  unfold utils.ReplaceByte. rewrite map_map. induction name as [|c name IH]; [done|].
  cbn [map forallb]. rewrite IH, andb_true_r.
  destruct c as [[] [] [] [] [] [] [] []]; reflexivity.
Qed.

(** X8.  For an ASCII file name the prettified title consists of words
    separated by single spaces, without leading or trailing space; no word
    is empty, contains white space, a hyphen or an underscore, or starts
    with a small letter. *)
Theorem PrettifyFilename_title_words (filename : gostring) :
  utils.isASCII filename = true ->
  exists words,
    utils.PrettifyFilename filename = strings.Join words (str " ")
    /\ Forall (fun w => utils.titleWord w = true) words.
Proof.
  intros _. unfold utils.PrettifyFilename. cbv zeta.
  set (name := strings.TrimSuffix filename (filepath.Ext filename)).
  eexists. split; [reflexivity|].
  pose proof (Fields_words _ _ (ReplaceByte_clean name)) as Hw.
  induction Hw as [|w ws [Hne Hw] Hws IH]; [constructor|].
  cbn [map]. constructor; [|exact IH].
  destruct w as [|c w]; [done|]. cbn [length]. cbn [Nat.ltb Nat.leb].
  cbn [forallb] in Hw. apply andb_true_iff in Hw as [Hc Hw].
  apply ToUpperByte_titleWord.
  - rewrite <- andb_assoc. exact Hc.
  - clear -Hw. induction w as [|x w IH]; [done|]. cbn [forallb] in *.
    apply andb_true_iff in Hw as [Hx Hw]. rewrite IH by done.
    rewrite andb_true_r. by rewrite <- andb_assoc.
Qed.

Lemma PrettifyFilename_title_words_witness :
  utils.isASCII (str "getting-started_guide.md") = true
  /\ exists words,
       str "Getting Started Guide" = strings.Join words (str " ")
       /\ Forall (fun w => utils.titleWord w = true) words.
Proof.
  split; [reflexivity|].
  exact (PrettifyFilename_title_words (str "getting-started_guide.md") eq_refl).
Defined.

(** ** Kinds of link targets *)

Lemma HasSuffix_split s suffix :
  strings.HasSuffix s suffix = true -> exists t, s = t ++ suffix.
Proof.
  unfold strings.HasSuffix. intros [_ H]%andb_true_iff.
  apply bool_decide_eq_true in H.
  exists (take (length s - length suffix) s).
  transitivity (take (length s - length suffix) s ++ drop (length s - length suffix) s);
    [by rewrite take_drop | by rewrite H].
Qed.

Lemma HasSuffix_app t suffix : strings.HasSuffix (t ++ suffix) suffix = true.
Proof.
  unfold strings.HasSuffix. rewrite length_app, andb_true_iff. split.
  - apply Nat.leb_le. lia.
  - apply bool_decide_eq_true.
    replace (length t + length suffix - length suffix) with (length t) by lia.
    by rewrite drop_app_length.
Qed.

Lemma HasSuffix_last s suffix c :
  strings.HasSuffix s suffix = true -> last suffix = Some c -> last s = Some c.
Proof.
  intros [t ->]%HasSuffix_split Hc. rewrite last_app. by rewrite Hc.
Qed.

Lemma isMarkdownLink_not_image link :
  isMarkdownLink link = true -> isImageLink link = false.
Proof.
  intros Hm. destruct (isImageLink link) eqn:Hi; [|done]. exfalso.
  unfold isImageLink, isMarkdownLink in *. cbv zeta in *.
  assert (Hlast_i : last (strings.ToLower link) = Some "g"
                    \/ last (strings.ToLower link) = Some "f"
                    \/ last (strings.ToLower link) = Some "p").
  { cbn [existsb] in Hi.
    repeat (apply orb_true_iff in Hi as [Hi|Hi]);
      try discriminate Hi;
      try (by left; eapply HasSuffix_last);
      try (by right; left; eapply HasSuffix_last);
      try (by right; right; eapply HasSuffix_last). }
  assert (Hlast_m : last (strings.ToLower link) = Some "d"
                    \/ last (strings.ToLower link) = Some "n").
  { cbn [existsb] in Hm.
    repeat (apply orb_true_iff in Hm as [Hm|Hm]);
      try discriminate Hm;
      try (by left; eapply HasSuffix_last);
      try (by right; eapply HasSuffix_last). }
  destruct Hlast_i as [H|[H|H]], Hlast_m as [H'|H']; rewrite H in H'; discriminate.
Qed.

(** X9.  No target is both an image link and a markdown link, so the
    order of the two tests in the link pass does not matter. *)
Theorem link_kinds_exclusive (link : gostring) :
  isImageLink link && isMarkdownLink link = false.
Proof.
  destruct (isMarkdownLink link) eqn:Hm; [|by rewrite andb_false_r].
  by rewrite (isMarkdownLink_not_image link Hm).
Qed.

(** X10.  The image pass resolves a target exactly as the link pass
    does: the two resolution blocks compute the same function. *)
Theorem resolveImage_resolveLink (baseDir target : gostring) :
  resolveImage baseDir target = resolveLink baseDir target.
Proof.
  unfold resolveImage, resolveLink, strings.TrimPrefix.
  destruct (strings.HasPrefix target (str "/")); reflexivity.
Qed.

(** X11.  Sorting the navigation loses and duplicates nothing: the sorted
    list is a rearrangement of the list given, of the same length. *)
Theorem SortDocPagesByTitle_rearranges (pages : list DocPage) :
  SortDocPagesByTitle pages ≡ₚ pages
  /\ length (SortDocPagesByTitle pages) = length pages.
Proof.
  assert (H : SortDocPagesByTitle pages ≡ₚ pages).
  { apply exchange_sort_perm.
    - intros a b. apply string_gt_asym.
    - intros a b c. apply string_le_trans. }
  split; [exact H | by rewrite H].
Qed.

(** ** Relative references and output paths *)

Lemma HasPrefix_split s prefix :
  strings.HasPrefix s prefix = true -> exists t, s = prefix ++ t.
Proof.
  unfold strings.HasPrefix. intros [_ H]%andb_true_iff.
  apply bool_decide_eq_true in H.
  exists (drop (length prefix) s).
  transitivity (take (length prefix) s ++ drop (length prefix) s);
    [by rewrite take_drop | by rewrite H].
Qed.

Lemma elements_nonempty s : filepath.elements s <> [].
Proof.
  destruct s as [|c s]; [done|]. simpl.
  destruct (filepath.IsPathSeparator c); [done|].
  by destruct (filepath.elements s).
Qed.

Lemma elements_split a b :
  filepath.elements (a ++ filepath.Separator :: b)
  = filepath.elements a ++ filepath.elements b.
Proof.
  induction a as [|c a IH]; [done|]. simpl.
  destruct (filepath.IsPathSeparator c); [by rewrite IH|].
  rewrite IH. pose proof (elements_nonempty a).
  by destruct (filepath.elements a).
Qed.

Lemma clean_elems_app rooted xs : forall out ys,
  filepath.clean_elems rooted out (xs ++ ys)
  = filepath.clean_elems rooted (filepath.clean_elems rooted out xs) ys.
Proof.
  induction xs as [|e xs IH]; intros out ys; [done|].
  change ((e :: xs) ++ ys) with (e :: xs ++ ys). cbn [filepath.clean_elems].
  destruct (bool_decide (e = [])); [apply IH|].
  destruct (bool_decide (e = str ".")); [apply IH|].
  destruct (bool_decide (e = str "..")); [|apply IH].
  destruct out as [|top out']; [destruct rooted; apply IH|].
  destruct (bool_decide (top = str "..")); apply IH.
Qed.

Lemma clean_elems_dotdot rooted top out es :
  is_name top = true ->
  filepath.clean_elems rooted (top :: out) (str ".." :: es)
  = filepath.clean_elems rooted out es.
Proof.
  intros (_ & _ & Ht)%is_name_inv. cbn [filepath.clean_elems].
  rewrite (bool_decide_eq_false_2 (str ".." = [])) by done.
  rewrite (bool_decide_eq_false_2 (str ".." = str ".")) by done.
  rewrite (bool_decide_eq_true_2 (str ".." = str "..")) by done.
  by rewrite bool_decide_eq_false_2.
Qed.

Lemma Join_app a b sep :
  a <> [] -> b <> [] ->
  strings.Join (a ++ b) sep = strings.Join a sep ++ sep ++ strings.Join b sep.
Proof.
  intros Ha Hb. induction a as [|x a IH]; [done|].
  destruct a as [|y a].
  - destruct b; [done|]. reflexivity.
  - change ((x :: y :: a) ++ b) with (x :: y :: (a ++ b)).
    rewrite !Join_cons2. change (y :: a ++ b) with ((y :: a) ++ b).
    rewrite IH by done. by rewrite <- !app_assoc.
Qed.

Lemma relpath_app dirs sub x :
  dirs <> [] ->
  strings.Join dirs [filepath.Separator] ++ filepath.Separator :: relpath sub x
  = relpath (dirs ++ sub) x.
Proof.
  intros Hne. unfold relpath. rewrite <- app_assoc.
  rewrite (Join_app dirs (sub ++ [x])); [done | done | by destruct sub].
Qed.

Lemma relpath_elements dirs x :
  Forall (fun e => is_name e = true) dirs -> is_name x = true ->
  filepath.elements (relpath dirs x) = dirs ++ [x].
Proof.
  intros Hd Hx. unfold relpath. apply elements_Join; [by destruct dirs|].
  apply Forall_is_name_no_sep, Forall_app. split; [done | by repeat constructor].
Qed.

(** A relative path of proper names starts neither with [/] nor with [./]. *)
Lemma relpath_not_prefixed dirs x :
  Forall (fun e => is_name e = true) dirs -> is_name x = true ->
  strings.HasPrefix (relpath dirs x) (str "/") = false
  /\ strings.HasPrefix (relpath dirs x) (str "./") = false.
Proof.
  intros Hd Hx. pose proof (relpath_elements dirs x Hd Hx) as He.
  assert (Hfirst : exists e es, dirs ++ [x] = e :: es /\ is_name e = true).
  { destruct dirs as [|d dirs]; [by exists x, []|].
    inversion Hd; subst. by exists d, (dirs ++ [x]). }
  destruct Hfirst as (e & es & Hes & Hn). rewrite Hes in He.
  destruct (is_name_inv e Hn) as (H1 & H2 & _).
  split.
  - destruct (strings.HasPrefix (relpath dirs x) (str "/")) eqn:E; [|done].
    apply HasPrefix_split in E as [t Ht]. rewrite Ht in He.
    change (str "/" ++ t) with ([] ++ filepath.Separator :: t) in He.
    rewrite elements_split in He. by injection He as <- _.
  - destruct (strings.HasPrefix (relpath dirs x) (str "./")) eqn:E; [|done].
    apply HasPrefix_split in E as [t Ht]. rewrite Ht in He.
    change (str "./" ++ t) with (str "." ++ filepath.Separator :: t) in He.
    rewrite elements_split in He. by injection He as <- _.
Qed.

Lemma Join_names_nonempty es :
  es <> [] -> Forall (fun e => is_name e = true) es ->
  strings.Join es [filepath.Separator] <> [].
Proof. intros Hne Hall. destruct (Join_names_head es Hne Hall) as (c & s & -> & _). done. Qed.

Lemma resolveLink_relative_names dirs sub name x :
  Forall (fun e => is_name e = true) dirs ->
  Forall (fun e => is_name e = true) sub ->
  is_name name = true -> is_name x = true ->
  resolveLink (filepath.Dir (relpath dirs name)) (relpath sub x) = relpath (dirs ++ sub) x.
Proof.
  intros Hd Hs Hn Hx.
  destruct (relpath_not_prefixed sub x Hs Hx) as [Hp1 Hp2].
  assert (Hall : Forall (fun e => is_name e = true) ((dirs ++ sub) ++ [x])).
  { repeat (apply Forall_app; split); [done | done | by repeat constructor]. }
  rewrite Dir_relpath by done. unfold resolveLink. rewrite Hp1, Hp2. cbn [negb].
  destruct dirs as [|d0 dirs]; [by rewrite bool_decide_eq_true_2|].
  rewrite bool_decide_eq_false_2 by (by apply Join_names_not_dot). cbn [negb].
  rewrite filepath_Join2 by (by apply Join_names_nonempty).
  rewrite relpath_app by done. unfold relpath. by apply Clean_names.
Qed.

(** X12.  A relative target made of proper names, with or without
    sub-directories, is resolved below the directory of the document that
    contains it; a target that starts with [../] is resolved below the
    parent of that directory. *)
Theorem resolveLink_relative (dirs sub : list gostring) (d name x : gostring) :
  Forall (fun e => is_name e = true) dirs ->
  Forall (fun e => is_name e = true) sub ->
  is_name d = true -> is_name name = true -> is_name x = true ->
  resolveLink (filepath.Dir (relpath dirs name)) (relpath sub x) = relpath (dirs ++ sub) x
  /\ resolveLink (filepath.Dir (relpath (dirs ++ [d]) name)) (str "../" ++ relpath sub x)
     = relpath (dirs ++ sub) x.
Proof.
  intros Hd Hs Hdn Hn Hx.
  destruct (relpath_not_prefixed sub x Hs Hx) as [Hp1 Hp2].
  assert (Hall : Forall (fun e => is_name e = true) ((dirs ++ sub) ++ [x])).
  { repeat (apply Forall_app; split); [done | done | by repeat constructor]. }
  split; [exact (resolveLink_relative_names dirs sub name x Hd Hs Hn Hx)|].
  assert (Hdd : Forall (fun e => is_name e = true) (dirs ++ [d]))
      by (apply Forall_app; split; [done | by repeat constructor]).
    rewrite Dir_relpath by done.
    replace (match dirs ++ [d] with
             | [] => str "."
             | _ :: _ => strings.Join (dirs ++ [d]) [filepath.Separator]
             end) with (strings.Join (dirs ++ [d]) [filepath.Separator])
      by (by destruct dirs).
    unfold resolveLink.
    change (strings.HasPrefix (str "../" ++ relpath sub x) (str "/")) with false.
    change (strings.HasPrefix (str "../" ++ relpath sub x) (str "./")) with false.
    cbn [negb].
    rewrite bool_decide_eq_false_2 by (apply Join_names_not_dot; [by destruct dirs | done]).
    cbn [negb].
    rewrite filepath_Join2 by (apply Join_names_nonempty; [by destruct dirs | done]).
    destruct (Join_names_head (dirs ++ [d])) as (c & s & Hj & Hc); [by destruct dirs | done |].
    rewrite (Clean_unrooted _ c (s ++ filepath.Separator :: str "../" ++ relpath sub x))
      by (by rewrite ?Hj).
    rewrite elements_split.
    rewrite (elements_Join (dirs ++ [d]) ltac:(by destruct dirs)
               (Forall_is_name_no_sep _ Hdd)).
    change (str "../" ++ relpath sub x) with (str ".." ++ filepath.Separator :: relpath sub x).
    rewrite elements_split, relpath_elements by done.
    change (filepath.elements (str "..")) with [str ".."].
    rewrite (clean_elems_app false (dirs ++ [d])).
    rewrite (clean_elems_names false (dirs ++ [d])) by done.
    rewrite app_nil_r, rev_app_distr. cbn [rev app].
    change ([str ".."] ++ sub ++ [x]) with (str ".." :: (sub ++ [x])).
    rewrite clean_elems_dotdot by done.
    rewrite clean_elems_names by (apply Forall_app; split; [done | by repeat constructor]).
    rewrite rev_app_distr, !rev_involutive, app_assoc.
    unfold relpath. by destruct (dirs ++ sub).
Qed.

Lemma resolveLink_relative_witness :
  resolveLink (filepath.Dir (str "a/b/readme.md")) (str "sub/x.md") = str "a/b/sub/x.md"
  /\ resolveLink (filepath.Dir (str "a/b/readme.md")) (str "../x.md") = str "a/x.md".
Proof.
  split.
  - exact (proj1 (resolveLink_relative [str "a"; str "b"] [str "sub"] (str "b")
                    (str "readme.md") (str "x.md")
                    ltac:(by repeat constructor) ltac:(by repeat constructor)
                    eq_refl eq_refl eq_refl)).
  - exact (proj2 (resolveLink_relative [str "a"] [] (str "b")
                    (str "readme.md") (str "x.md")
                    ltac:(by repeat constructor) ltac:(by repeat constructor)
                    eq_refl eq_refl eq_refl)).
Defined.

Lemma IndexByte_lacks s c : lacks c s = true -> strings.IndexByte s c = (-1)%Z.
Proof.
  induction s as [|x s IH]; [done|]. cbn [lacks forallb strings.IndexByte].
  unfold regexp.notByte. intros [Hx Hs]%andb_true_iff.
  apply negb_true_iff in Hx. rewrite Hx. fold (lacks c s) in Hs. by rewrite IH.
Qed.

(** X13.  Links and pages agree.  In the document [name] of the directory
    [dirs], a link met by the scan whose target is a relative path of
    proper names to a markdown document, without anchor and not starting
    with [http], is rewritten to [../] followed by the very path under
    which the page of the target document is written. *)
Theorem ProcessRelativeLinks_points_to_page
        (dirs sub : list gostring) (name x pre text post owner repo : gostring) :
  Forall (fun e => is_name e = true) dirs ->
  Forall (fun e => is_name e = true) sub ->
  is_name name = true -> is_name x = true ->
  let target := relpath sub x in
  let link := str "[" ++ text ++ str "](" ++ target ++ str ")" in
  is_match regexp.LinkRe text target = true ->
  isMarkdownLink target = true ->
  strings.HasPrefix target (str "http") = false ->
  lacks "#" target = true ->
  starts_no_match regexp.LinkRe pre (link ++ post) = true ->
  ProcessRelativeLinks (pre ++ link ++ post) (relpath dirs name) owner repo
  = pre ++ (str "[" ++ text ++ str "](../"
              ++ GetOutputPath (relpath (dirs ++ sub) x) (str "docs") ++ str ")")
        ++ ProcessRelativeLinks post (relpath dirs name) owner repo.
Proof.
  intros Hd Hs Hn Hx target link Hm Hmd Hhttp Hanchor Hpre.
  subst link target.
  change (str "[" ++ text ++ str "](" ++ relpath sub x ++ str ")")
    with (regexp.whole regexp.LinkRe text (relpath sub x)) in *.
  rewrite ProcessRelativeLinks_occurrence by done.
  assert (Hhash : strings.HasPrefix (relpath sub x) (str "#") = false).
  { destruct (strings.HasPrefix (relpath sub x) (str "#")) eqn:E; [|done].
    apply HasPrefix_split in E as [t Ht]. rewrite Ht in Hanchor. done. }
  rewrite rewriteLink_markdown by (done || by apply isMarkdownLink_not_image).
  cbv zeta. rewrite IndexByte_lacks by done.
  change (-1 >? -1)%Z with false. cbv iota.
  rewrite app_nil_l.
  rewrite (resolveLink_relative_names dirs sub name x Hd Hs Hn Hx).
  by rewrite <- !app_assoc.
Qed.

Lemma ProcessRelativeLinks_points_to_page_witness :
  ProcessRelativeLinks (str "see [the API](api/index.md).") (str "guide/intro.md")
                       (str "go-i2p") (str "go-gh-page")
  = str "see [the API](../docs/guide/api/index.html)."
  /\ GetOutputPath (str "guide/api/index.md") (str "docs") = str "docs/guide/api/index.html".
Proof.
  split; [|reflexivity].
  exact (ProcessRelativeLinks_points_to_page [str "guide"] [str "api"] (str "intro.md")
           (str "index.md") (str "see ") (str "the API") (str ".") (str "go-i2p")
           (str "go-gh-page") ltac:(by repeat constructor) ltac:(by repeat constructor)
           eq_refl eq_refl eq_refl eq_refl eq_refl eq_refl eq_refl).
Defined.

Lemma Base_shape path :
  filepath.Base path = [filepath.Separator]
  \/ (filepath.Base path <> [] /\ no_sep (filepath.Base path) = true).
Proof.
  unfold filepath.Base. destruct path as [|c path]; [by right|].
  set (stripped := (span filepath.IsPathSeparator (rev (c :: path))).2).
  pose proof (span_fst_forallb (fun c => negb (filepath.IsPathSeparator c)) stripped) as H.
  destruct (rev (span _ stripped).1) as [|y l] eqn:E; [by left|].
  right. split; [done|]. rewrite <- E. unfold no_sep. by rewrite forallb_rev.
Qed.

Lemma Clean_name n : is_name n = true -> filepath.Clean n = n.
Proof.
  intros Hn. apply (Clean_names [n]); [done | by repeat constructor].
Qed.

(** [Clean] keeps a proper name that ends a path. *)
Lemma Clean_keeps_last q n :
  is_name n = true ->
  exists z, filepath.Clean (q ++ filepath.Separator :: n) = z ++ n.
Proof.
  intros Hn. unfold filepath.Clean.
  destruct (q ++ filepath.Separator :: n) as [|c s] eqn:E; [by destruct q|].
  rewrite <- E. cbv zeta. rewrite elements_split, clean_elems_app.
  rewrite (elements_name n) by (by apply is_name_no_sep).
  rewrite (clean_elems_names _ [n]) by (by repeat constructor).
  cbn [rev app]. set (out := filepath.clean_elems _ [] _).
  assert (Hj : exists z, strings.Join (rev out ++ [n]) [filepath.Separator] = z ++ n).
  { destruct (rev out) as [|y l] eqn:Er; [by exists []|].
    rewrite Join_snoc by done. eexists. by rewrite app_assoc. }
  destruct Hj as [z Hj].
  destruct (filepath.IsPathSeparator c).
  - exists (filepath.Separator :: z). by rewrite Hj.
  - exists z. rewrite <- Hj. by destruct (rev out ++ [n]) eqn:El; [destruct (rev out)|].
Qed.

Lemma Join_keeps_last l : forall bn n,
  is_name n = true -> (bn = n \/ bn = filepath.Separator :: n) ->
  exists z, filepath.Join (l ++ [bn]) = z ++ n.
Proof.
  induction l as [|e l IH]; intros bn n Hn Hbn.
  - cbn [app filepath.Join].
    assert (bn <> []) by (destruct Hbn as [->| ->]; [by apply is_name_inv | done]).
    rewrite bool_decide_eq_false_2 by done. cbn [strings.Join].
    destruct Hbn as [->| ->].
    + exists []. by apply Clean_name.
    + apply (Clean_keeps_last [] n Hn).
  - change ((e :: l) ++ [bn]) with (e :: l ++ [bn]). cbn [filepath.Join].
    destruct (bool_decide (e = [])); [by apply IH|].
    change (e :: l ++ [bn]) with ((e :: l) ++ [bn]).
    rewrite Join_snoc by done.
    destruct Hbn as [->| ->].
    + apply (Clean_keeps_last _ n Hn).
    + rewrite (app_assoc _ [filepath.Separator] (filepath.Separator :: n)).
      apply (Clean_keeps_last _ n Hn).
Qed.

(** X14.  Whatever path and output root it is given, [GetOutputPath]
    returns a path that ends in [.html]. *)
Theorem GetOutputPath_html (path baseDir : gostring) :
  strings.HasSuffix (GetOutputPath path baseDir) (str ".html") = true.
Proof.
  unfold GetOutputPath. cbv zeta.
  set (b := filepath.Base path).
  set (stem := strings.TrimSuffix b (filepath.Ext b)).
  assert (Hbn : exists n, is_name n = true
                          /\ (exists t, n = t ++ str ".html")
                          /\ (stem ++ str ".html" = n
                              \/ stem ++ str ".html" = filepath.Separator :: n)).
  { pose proof (TrimSuffix_Ext b) as Hb. fold stem in Hb.
    destruct (Base_shape path) as [Hs|[_ Hs]]; fold b in Hs.
    - exists (str ".html"). split; [reflexivity|]. split; [by exists []|].
      right. subst stem. by rewrite Hs.
    - exists (stem ++ str ".html"). split; [|split; [by exists stem | by left]].
      apply is_name_html. rewrite Hb in Hs. unfold no_sep in *.
      rewrite forallb_app in Hs. by apply andb_true_iff in Hs as [Hs _]. }
  destruct Hbn as (n & Hn & [t Ht] & Hbn).
  destruct (bool_decide (filepath.Dir path = str ".")).
  - destruct (Join_keeps_last [baseDir] (stem ++ str ".html") n Hn Hbn) as [z Hz].
    change (filepath.Join [baseDir; stem ++ str ".html"] = z ++ n) in Hz.
    rewrite Hz, Ht, app_assoc. apply HasSuffix_app.
  - destruct (Join_keeps_last [baseDir; filepath.Dir path] (stem ++ str ".html") n Hn Hbn)
      as [z Hz].
    change (filepath.Join [baseDir; filepath.Dir path; stem ++ str ".html"] = z ++ n) in Hz.
    rewrite Hz, Ht, app_assoc. apply HasSuffix_app.
Qed.

(** ** The two passes together *)

(** X15.  Text without an opening bracket passes through both passes as
    it is. *)
Theorem passes_keep_text_without_brackets (content filePath owner repo : gostring) :
  lacks "[" content = true ->
  processImageLinks (ProcessRelativeLinks content filePath owner repo) filePath = content.
Proof.
  intros H.
  assert (Hn : forall re repl s, lacks "[" s = true ->
                                 regexp.replace_from re repl 0 s = s).
  { intros re repl s. induction s as [|c s IH]; [done|].
    cbn [lacks forallb regexp.replace_from]. intros [Hc Hs]%andb_true_iff.
    assert (Hm : regexp.match_at re (c :: s) = None).
    { unfold regexp.notByte in Hc.
      destruct re; simpl.
      - unfold regexp.bracket_at. destruct c as [[] [] [] [] [] [] [] []]; done.
      - destruct (Ascii.eqb_spec c "!") as [->|Hb].
        + destruct s as [|c' s']; [done|]. cbn [forallb] in Hs.
          apply andb_true_iff in Hs as [Hc' _]. unfold regexp.notByte in Hc'.
          unfold regexp.bracket_at. destruct c' as [[] [] [] [] [] [] [] []]; done.
        + destruct c as [[] [] [] [] [] [] [] []]; done. }
    rewrite Hm. fold (lacks "[" s) in Hs. by rewrite IH. }
  unfold processImageLinks, ProcessRelativeLinks, regexp.ReplaceAllStringFunc.
  rewrite (Hn regexp.LinkRe _ content H). exact (Hn regexp.ImageRe _ content H).
Qed.

Lemma passes_keep_text_without_brackets_witness :
  processImageLinks
    (ProcessRelativeLinks (str "Wow! (see guide.md)") (str "docs/a.md")
                          (str "go-i2p") (str "go-gh-page")) (str "docs/a.md")
  = str "Wow! (see guide.md)".
Proof.
  exact (passes_keep_text_without_brackets (str "Wow! (see guide.md)") (str "docs/a.md")
           (str "go-i2p") (str "go-gh-page") eq_refl).
Defined.

(** X16.  An image embed with an image extension goes through both passes
    as intended: the link pass leaves it alone, the image pass points it to
    the images directory.  The text before the embed contains neither an
    opening bracket nor an exclamation mark. *)
Theorem passes_rewrite_image_embed (pre alt target post filePath owner repo : gostring) :
  lacks "[" pre = true -> lacks "!" pre = true ->
  is_match regexp.LinkRe alt target = true ->
  isImageLink target = true ->
  strings.HasPrefix target (str "http") = false ->
  processImageLinks
    (ProcessRelativeLinks (pre ++ (str "![" ++ alt ++ str "](" ++ target ++ str ")") ++ post)
                          filePath owner repo) filePath
  = pre ++ (str "![" ++ alt ++ str "](../images/"
              ++ filepath.Base (resolveImage (filepath.Dir filePath) target) ++ str ")")
        ++ processImageLinks (ProcessRelativeLinks post filePath owner repo) filePath.
Proof.
  intros Hb Hx Hm Hi Hh.
  assert (Hmi : is_match regexp.ImageRe alt target = true).
  { unfold is_match in *. repeat (apply andb_true_iff in Hm as [Hm ?]).
    by rewrite Hm, H0, H. }
  replace (pre ++ (str "![" ++ alt ++ str "](" ++ target ++ str ")") ++ post)
    with ((pre ++ str "!") ++ regexp.whole regexp.LinkRe alt target ++ post)
    by (unfold regexp.whole; by rewrite <- !app_assoc).
  rewrite ProcessRelativeLinks_occurrence; [| |done].
  2:{ apply lacks_starts_no_match. change (lacks "[" (pre ++ str "!") = true).
      unfold lacks in *. rewrite forallb_app, Hb. reflexivity. }
  rewrite rewriteLink_skip; [|done|by rewrite Hi, !orb_true_r].
  replace ((pre ++ str "!") ++ regexp.whole regexp.LinkRe alt target
             ++ ProcessRelativeLinks post filePath owner repo)
    with (pre ++ regexp.whole regexp.ImageRe alt target
              ++ ProcessRelativeLinks post filePath owner repo)
    by (unfold regexp.whole; by rewrite <- !app_assoc).
  rewrite processImageLinks_occurrence; [| by apply lacks_starts_no_match | done].
  rewrite rewriteImage_local by done.
  by rewrite <- !app_assoc.
Qed.

Lemma passes_rewrite_image_embed_witness :
  processImageLinks
    (ProcessRelativeLinks (str "Logo: ![logo](img/logo.png) and [home](index.md)")
                          (str "guide.md") (str "go-i2p") (str "go-gh-page"))
    (str "guide.md")
  = str "Logo: ![logo](../images/logo.png) and [home](../docs/index.html)".
Proof.
  etrans; [exact (passes_rewrite_image_embed (str "Logo: ") (str "logo") (str "img/logo.png")
                    (str " and [home](index.md)") (str "guide.md") (str "go-i2p")
                    (str "go-gh-page") eq_refl eq_refl eq_refl eq_refl eq_refl)|].
  reflexivity.
Defined.

(** ** The files of the repository *)

Example description_vectors :
  gitfiles.extractDescriptionFromReadme (str "# Title

A tool.
More.") = str "A tool."
  /\ gitfiles.extractDescriptionFromReadme (str "# Title") = str ""
  /\ gitfiles.extractDescriptionFromReadme (str "  plain text  
# T") = str "plain text"
  /\ gitfiles.extractDescriptionFromReadme (str "#
x
y") = str "y"
  /\ gitfiles.detectLicenseType (str "The MIT License (MIT)") = str "MIT License"
  /\ gitfiles.detectLicenseType (str "nothing") = str ""
  /\ gitfiles.isLicenseFile (str "LICENSE.md") = true
  /\ option_map gitfiles.ReadmePath
       (gitfiles.walkRepository
          (gitfiles.Dir (str "repo")
             [gitfiles.Dir (str ".git") [gitfiles.File (str "README.md") (Some (str "x"))];
              gitfiles.Dir (str "docs") [gitfiles.File (str "README.md") (Some (str "inner"));
                                         gitfiles.File (str "a.md") (Some (str "A"));
                                         gitfiles.File (str "p.png") None];
              gitfiles.File (str "README.md") (Some (str "top"))])
          (str "/tmp/repo"))
     = Some (str "README.md")
  /\ option_map gitfiles.MarkdownFiles
       (gitfiles.walkRepository
          (gitfiles.Dir (str "repo")
             [gitfiles.Dir (str "docs") [gitfiles.File (str "readme.md") (Some (str "inner"));
                                         gitfiles.File (str "p.png") None]])
          (str "/tmp/repo"))
     = Some [(str "docs/readme.md", str "inner")].
Proof. repeat split; vm_compute; reflexivity. Qed.

(** ** The outcome of a site generation *)

Section SiteOutcome.
Variable GetTitleFromMarkdown : gostring -> gostring.
Variable PrettifyFilename : gostring -> gostring.
Variable renderMarkdown : gostring -> gostring.
Variable writable : gostring -> bool.
Variable repoData : git.RepositoryData.

Local Abbreviation collectDocsPages :=
  (generator.collectDocsPages GetTitleFromMarkdown PrettifyFilename).
Local Abbreviation generateDocPages :=
  (generator.generateDocPages GetTitleFromMarkdown PrettifyFilename renderMarkdown
                              writable repoData).
Local Abbreviation GenerateSite :=
  (generator.GenerateSite GetTitleFromMarkdown PrettifyFilename renderMarkdown
                          writable repoData).
Local Abbreviation docPageFile :=
  (generator.docPageFile GetTitleFromMarkdown PrettifyFilename renderMarkdown repoData).
Local Abbreviation mainPageFile := (generator.mainPageFile renderMarkdown repoData).

Local Abbreviation pageWritable := (pageWritable writable).

Lemma generateDocPages_first_failure range : forall count st nav ok d rest,
  generator.slices st !! 0%nat = Some nav ->
  generator.rendered range = ok ++ d :: rest ->
  Forall pageWritable ok ->
  ~ pageWritable d ->
  (generateDocPages range 0 count st).1 = None
  /\ generator.written (generateDocPages range 0 count st).2
     = generator.written st ++ map (docPageFile nav) ok.
Proof.
  induction range as [|[path content] range IH]; intros count st nav ok d rest Hnav Hr Hok Hd.
  - by destruct ok.
  - cbn [generator.generateDocPages]. unfold generator.rendered in Hr.
    rewrite filter_cons in Hr. fold (generator.rendered range) in Hr. cbn [fst] in Hr.
    destruct (generator.isReadmeFile (filepath.Base path)) eqn:E.
    + rewrite decide_False in Hr by done. by eapply IH.
    + rewrite decide_True in Hr by done.
      rewrite (generateDocPage_spec _ _ _ writable repoData path content 0 st nav Hnav).
      cbv zeta. destruct ok as [|o ok]; cbn [app] in Hr; injection Hr as <- Hr.
      * unfold pageWritable in Hd. cbn [fst] in Hd.
        destruct (writable (GetOutputPath path (str "docs"))); [done|].
        cbn [fst snd generator.written]. by rewrite !app_nil_r.
      * apply Forall_cons in Hok as [Ho Hok]. unfold pageWritable in Ho. cbn [fst] in Ho.
        rewrite Ho. set (st1 := generator.mkState _ _).
        destruct (IH (count + 1)%Z st1 nav ok d rest) as [H1 H2]; try done.
        { by apply lookup_app_l_Some. }
        destruct (generateDocPages range 0 (count + 1) st1) as [[n|] st2];
          cbn [fst snd] in *; [done|].
        split; [done|]. rewrite H2. subst st1. cbn [generator.written].
        by rewrite <- app_assoc.
Qed.

Lemma generateDocPages_all_written range : forall count st nav,
  generator.slices st !! 0%nat = Some nav ->
  Forall pageWritable (generator.rendered range) ->
  (generateDocPages range 0 count st).1
  = Some (count + Z.of_nat (length (generator.rendered range)))%Z
  /\ generator.written (generateDocPages range 0 count st).2
     = generator.written st ++ map (docPageFile nav) (generator.rendered range).
Proof.
  induction range as [|[path content] range IH]; intros count st nav Hnav Hall.
  - cbn. rewrite app_nil_r. split; [f_equal; lia | done].
  - cbn [generator.generateDocPages]. unfold generator.rendered in *.
    rewrite filter_cons in *. cbn [fst] in *.
    destruct (generator.isReadmeFile (filepath.Base path)) eqn:E.
    + rewrite decide_False in * by done. by apply IH.
    + rewrite decide_True in * by done.
      rewrite (generateDocPage_spec _ _ _ writable repoData path content 0 st nav Hnav).
      cbv zeta. apply Forall_cons in Hall as [Ho Hall].
      unfold pageWritable in Ho. cbn [fst] in Ho. rewrite Ho.
      set (st1 := generator.mkState _ _).
      destruct (IH (count + 1)%Z st1 nav) as [H1 H2]; try done.
      { by apply lookup_app_l_Some. }
      destruct (generateDocPages range 0 (count + 1) st1) as [r st2]; cbn [fst snd] in *.
      subst r. split; [f_equal; cbn [length]; lia|].
      rewrite H2. subst st1. cbn [generator.written map]. by rewrite <- app_assoc.
Qed.

(** A list with an element that fails splits at the first such element. *)
Lemma first_failure (l : list (gostring * gostring)) :
  ~ Forall pageWritable l ->
  exists ok d rest, l = ok ++ d :: rest /\ Forall pageWritable ok /\ ~ pageWritable d.
Proof.
  induction l as [|x l IH]; intros Hl; [by destruct Hl|].
  destruct (decide (pageWritable x)) as [Hx|Hx].
  - destruct IH as (ok & d & rest & -> & Hok & Hd).
    { intros Hall. apply Hl. by constructor. }
    exists (x :: ok), d, rest. split; [done|]. split; [by constructor | done].
  - exists [], x, l. by repeat split.
Qed.

(** X17.  The generation succeeds exactly when the overview page and the
    page of every document that is not a README can be written.  On
    success the document count is the number of these documents, and the
    files written are the overview page followed by their pages in the
    order of the loop. *)
Theorem GenerateSite_succeeds_iff navRange pageRange :
  let res := GenerateSite navRange pageRange in
  let nav := SortDocPagesByTitle (collectDocsPages navRange []) in
  let docs := generator.rendered pageRange in
  (is_Some res.1
   <-> writable (str "index.html") = true /\ Forall pageWritable docs)
  /\ forall r, res.1 = Some r ->
       generator.DocsCount r = Z.of_nat (length docs)
       /\ generator.written res.2 = mainPageFile nav :: map (docPageFile nav) docs.
Proof.
  intros res nav docs. subst res.
  unfold generator.GenerateSite, generator.generateMainPage. fold nav.
  cbn [generator.slices generator.written lookup].
  change (default [] ([nav] !! 0%nat)) with nav.
  destruct (writable (str "index.html")) eqn:Hi.
  - set (st := generator.mkState _ _).
    destruct (decide (Forall pageWritable docs)) as [Hall|Hnot].
    + destruct (generateDocPages_all_written pageRange 0%Z st nav eq_refl Hall) as [H1 H2].
      destruct (generateDocPages pageRange 0 0 st) as [r st2]; cbn [fst snd] in *.
      subst r. cbn [fst snd]. split; [by split; [|eexists]|].
      intros r [= <-]. cbn [generator.DocsCount]. split; [fold docs; lia|]. by rewrite H2.
    + destruct (first_failure docs Hnot) as (ok & d & rest & Hdocs & Hok & Hd).
      destruct (generateDocPages_first_failure pageRange 0%Z st nav ok d rest
                  eq_refl Hdocs Hok Hd) as [H1 H2].
      destruct (generateDocPages pageRange 0 0 st) as [r st2]; cbn [fst snd] in *.
      subst r. cbn [fst snd]. split; [|done].
      split; [by intros [? ?] | by intros [_ ?]].
  - cbn [fst snd]. split; [|done]. split; [by intros [? ?] | by intros [? _]].
Qed.

(** X18.  The first page that cannot be written ends the run with an
    error: if the overview page cannot be written nothing is written, and
    if the page of the document [d] is the first that cannot be written,
    the files written are the overview page and the pages of the documents
    before [d], and none of those after it. *)
Theorem GenerateSite_stops_at_first_failure navRange pageRange :
  let res := GenerateSite navRange pageRange in
  let nav := SortDocPagesByTitle (collectDocsPages navRange []) in
  (writable (str "index.html") = false ->
   res.1 = None /\ generator.written res.2 = [])
  /\ forall ok d rest,
       writable (str "index.html") = true ->
       generator.rendered pageRange = ok ++ d :: rest ->
       Forall pageWritable ok ->
       ~ pageWritable d ->
       res.1 = None
       /\ generator.written res.2 = mainPageFile nav :: map (docPageFile nav) ok.
Proof.
  intros res nav. subst res.
  unfold generator.GenerateSite, generator.generateMainPage. fold nav.
  cbn [generator.slices generator.written lookup].
  change (default [] ([nav] !! 0%nat)) with nav.
  split.
  - by intros ->.
  - intros ok d rest -> Hdocs Hok Hd.
    set (st := generator.mkState _ _).
    destruct (generateDocPages_first_failure pageRange 0%Z st nav ok d rest
                eq_refl Hdocs Hok Hd) as [H1 H2].
    destruct (generateDocPages pageRange 0 0 st) as [r st2]; cbn [fst snd] in *.
    subst r. cbn [fst snd]. by rewrite H2.
Qed.

(** X19.  Every page written shows the same navigation: the titles and the
    paths of its entries are those of the sorted navigation list, in the
    same order; pages differ only in the entries flagged active. *)
Theorem pages_share_navigation navRange pageRange f :
  f ∈ generator.written (GenerateSite navRange pageRange).2 ->
  let nav := SortDocPagesByTitle (collectDocsPages navRange []) in
  map (fun pg => (Title pg, Path pg)) (generator.DocsPages (generator.data f))
  = map (fun pg => (Title pg, Path pg)) nav.
Proof.
  intros Hf nav.
  destruct (written_inv _ _ _ _ _ navRange pageRange f Hf) as [->|(d & _ & ->)]; [done|].
  cbn [generator.docPageFile generator.data generator.DocsPages].
  unfold generator.markActive. rewrite map_map. apply map_ext.
  intros pg. by destruct (bool_decide _).
Qed.

End SiteOutcome.

Lemma GenerateSite_stops_at_first_failure_witness :
  let w := fun p : gostring => bool_decide (p = str "index.html")
                               || bool_decide (p = str "docs/a.html") in
  let rd := git.mkRepositoryData (str "o") (str "r") (str "") (str "") [] in
  let range := [(str "a.md", str "A"); (str "b.md", str "B"); (str "c.md", str "C")] in
  let res := generator.GenerateSite utils.GetTitleFromMarkdown utils.PrettifyFilename
                                    id w rd range range in
  res.1 = None /\ length (generator.written res.2) = 2%nat.
Proof.
  intros w rd range res.
  destruct (GenerateSite_stops_at_first_failure
              utils.GetTitleFromMarkdown utils.PrettifyFilename id w rd range range)
    as [_ H].
  destruct (H [(str "a.md", str "A")] (str "b.md", str "B") [(str "c.md", str "C")])
    as [H1 H2].
  - reflexivity.
  - reflexivity.
  - repeat constructor.
  - vm_compute. discriminate.
  - split; [exact H1 | ]. fold res in H2. rewrite H2. reflexivity.
Defined.

Lemma pages_share_navigation_witness :
  let rd := git.mkRepositoryData (str "o") (str "r") (str "") (str "") [] in
  let range := [(str "b.md", str "B"); (str "a.md", str "A")] in
  let f := generator.docPageFile utils.GetTitleFromMarkdown utils.PrettifyFilename
                                 id rd
             (SortDocPagesByTitle
                (generator.collectDocsPages utils.GetTitleFromMarkdown
                                            utils.PrettifyFilename range []))
             (str "a.md", str "A") in
  map (fun pg => (Title pg, Path pg)) (generator.DocsPages (generator.data f))
  = [(str "A", str "docs/a.html"); (str "B", str "docs/b.html")].
Proof.
  intros rd range f.
  rewrite (pages_share_navigation utils.GetTitleFromMarkdown utils.PrettifyFilename
             id (fun _ => true) rd range range f).
  - vm_compute. reflexivity.
  - vm_compute. right. right. left.
Defined.

(** ** The walk over the repository *)























(** ** The description taken from the README *)

Lemma span_snd_forallb (q p : ascii -> bool) (s : gostring) :
  forallb q s = true -> forallb q (span p s).2 = true.
Proof.
  induction s as [|c s IH]; [done|]. intros H. cbn [span].
  destruct (p c); [|done]. apply andb_true_iff in H as [_ H].
  specialize (IH H). by destruct (span p s).
Qed.

Lemma span_snd_head p s : forall f b body,
  span p s = (f, b :: body) -> p b = false.
Proof.
  induction s as [|c s IH]; intros f b body; cbn [span]; [done|].
  destruct (p c) eqn:E.
  - destruct (span p s) as [f1 b1]. intros [= _ ->]. by eapply IH.
  - by intros [= _ <- _].
Qed.

Lemma TrimSpace_lacks c s : lacks c s = true -> lacks c (gitfiles.TrimSpace s) = true.
Proof.
  unfold lacks, gitfiles.TrimSpace. intros H.
  rewrite forallb_rev. apply span_snd_forallb. rewrite forallb_rev.
  by apply span_snd_forallb.
Qed.

Lemma truncate_length d : (length (gitfiles.truncate d) <= 150)%nat.
Proof.
  unfold gitfiles.truncate. destruct (150 <? length d)%nat eqn:E.
  - apply Nat.ltb_lt in E. rewrite length_app, length_take.
    change (length (str "...")) with 3%nat. lia.
  - by apply Nat.ltb_ge in E.
Qed.

Lemma truncate_lacks d : lacks "010" d = true -> lacks "010" (gitfiles.truncate d) = true.
Proof.
  unfold gitfiles.truncate, lacks. intros H. destruct (150 <? length d)%nat; [|done].
  rewrite forallb_app. apply andb_true_iff. split; [|done].
  rewrite <- (take_drop 147 d), forallb_app in H. by apply andb_true_iff in H as [? _].
Qed.

Lemma paragraph_group_lacks given_back : forall rest g,
  gitfiles.paragraph_group given_back rest = Some g ->
  g <> [] /\ lacks "010" g = true.
Proof.
  induction given_back as [|w gb IH]; intros rest g; [done|].
  cbn [gitfiles.paragraph_group].
  destruct (span utils.notNewline rest) as [line after].
  destruct (span gitfiles.isNewline after) as [feeds body] eqn:Ef.
  destruct line as [|l line]; [apply IH|].
  destruct feeds as [|n feeds]; [apply IH|].
  destruct body as [|b body]; [apply IH|].
  intros [= <-]. split; [|exact (span_fst_forallb utils.notNewline (b :: body))].
  pose proof (span_snd_head _ _ _ _ _ Ef) as Hb.
  cbn [span]. unfold utils.notNewline at 1. unfold gitfiles.isNewline in Hb.
  rewrite Hb. cbn [negb]. by destruct (span utils.notNewline body).
Qed.

Lemma find_paragraph_lacks s : forall b g,
  gitfiles.find_paragraph b s = Some g -> g <> [] /\ lacks "010" g = true.
Proof.
  induction s as [|c s IH]; intros b g; [done|]. cbn [gitfiles.find_paragraph].
  destruct (if b then gitfiles.paragraph_at (c :: s) else None) as [g'|] eqn:E.
  - intros [= <-]. destruct b; [|done]. unfold gitfiles.paragraph_at in E.
    destruct (Ascii.eqb_spec c "#") as [->|Hc].
    + destruct (span utils.isSpaceClass s) as [ws rest]. by eapply paragraph_group_lacks.
    + destruct c as [[] [] [] [] [] [] [] []]; done.
  - apply IH.
Qed.

Lemma splitLines_lacks s :
  Forall (fun l => lacks "010" l = true) (gitfiles.splitLines s).
Proof.
  induction s as [|c s IH]; cbn [gitfiles.splitLines]; [by repeat constructor|].
  destruct (gitfiles.isNewline c) eqn:E; [by constructor|].
  assert (Hc : regexp.notByte "010" c = true).
  { unfold regexp.notByte. unfold gitfiles.isNewline in E. by rewrite E. }
  destruct (gitfiles.splitLines s) as [|l ls].
  - repeat constructor. unfold lacks. cbn [forallb]. by rewrite Hc.
  - apply Forall_cons in IH as [Hl Hls]. constructor; [|done].
    unfold lacks in *. cbn [forallb]. by rewrite Hc, Hl.
Qed.

Lemma firstTextLine_spec lines :
  Forall (fun l => lacks "010" l = true) lines ->
  (length (gitfiles.firstTextLine lines) <= 150)%nat
  /\ lacks "010" (gitfiles.firstTextLine lines) = true.
Proof.
  induction 1 as [|l lines Hl _ IH]; cbn [gitfiles.firstTextLine].
  - split; [cbn; lia | done].
  - destruct (_ && _); [|exact IH].
    split; [apply truncate_length|]. by apply truncate_lacks, TrimSpace_lacks.
Qed.

(** X24.  The description taken from a README is short and on one line:
    it has at most 150 bytes and no line feed, whatever the README
    holds. *)
Theorem extractDescriptionFromReadme_short_line (content : gostring) :
  (length (gitfiles.extractDescriptionFromReadme content) <= 150)%nat
  /\ lacks "010" (gitfiles.extractDescriptionFromReadme content) = true.
Proof.
  unfold gitfiles.extractDescriptionFromReadme.
  destruct (gitfiles.find_paragraph true content) as [desc|] eqn:E.
  - split; [apply truncate_length|].
    apply truncate_lacks. by eapply find_paragraph_lacks.
  - apply firstTextLine_spec, splitLines_lacks.
Qed.

(** X25.  For a README that opens with a first-level heading, followed by
    one or more line feeds and a line of text, the description is that
    line, cut to 147 bytes and three dots when it is longer than 150. *)
Theorem extractDescriptionFromReadme_first_paragraph
        (ws t feeds p rest : gostring) (x y : ascii) :
  ws <> [] ->
  forallb utils.isSpaceClass ws = true ->
  utils.isSpaceClass x = false ->
  lacks "010" t = true ->
  feeds <> [] ->
  forallb gitfiles.isNewline feeds = true ->
  gitfiles.isNewline y = false ->
  lacks "010" p = true ->
  (rest = [] \/ exists rest', rest = "010" :: rest') ->
  gitfiles.extractDescriptionFromReadme
    (str "#" ++ ws ++ (x :: t) ++ feeds ++ (y :: p) ++ rest)
  = gitfiles.truncate (y :: p).
Proof.
  intros Hne Hws Hx Ht Hfne Hf Hy Hp Hrest. unfold gitfiles.extractDescriptionFromReadme.
  change (str "#" ++ ws ++ (x :: t) ++ feeds ++ (y :: p) ++ rest)
    with ("#" :: ws ++ x :: t ++ feeds ++ y :: p ++ rest).
  cbn [gitfiles.find_paragraph gitfiles.paragraph_at].
  rewrite (span_app utils.isSpaceClass ws x _ Hws Hx).
  assert (Hnx : utils.notNewline x = true).
  { unfold utils.notNewline. destruct (Ascii.eqb_spec x "010") as [->|]; done. }
  assert (Hny : utils.notNewline y = true).
  { unfold utils.notNewline. unfold gitfiles.isNewline in Hy. by rewrite Hy. }
  assert (Hg : gitfiles.paragraph_group (rev ws) (x :: t ++ feeds ++ y :: p ++ rest)
               = Some (y :: p)).
  { destruct (rev ws) as [|w gb] eqn:E.
    - apply (f_equal (@rev ascii)) in E. rewrite rev_involutive in E. done.
    - cbn [gitfiles.paragraph_group].
      destruct feeds as [|n feeds]; [done|]. cbn [forallb] in Hf.
      apply andb_true_iff in Hf as [Hn Hf].
      assert (Hnn : utils.notNewline n = false).
      { unfold utils.notNewline. unfold gitfiles.isNewline in Hn. by rewrite Hn. }
      change (x :: t ++ (n :: feeds) ++ y :: p ++ rest)
        with ((x :: t) ++ n :: feeds ++ y :: p ++ rest).
      rewrite (span_app utils.notNewline (x :: t) n _);
        [|by cbn [forallb]; rewrite Hnx | done].
      change (n :: feeds ++ y :: p ++ rest) with ((n :: feeds) ++ y :: p ++ rest).
      rewrite (span_app gitfiles.isNewline (n :: feeds) y _);
        [|by cbn [forallb]; rewrite Hn | done].
      f_equal. cbn [span]. rewrite Hny.
      assert (Hsp : span utils.notNewline (p ++ rest) = (p, rest)).
      { destruct Hrest as [->|[rest' ->]].
        - rewrite app_nil_r. by apply span_all.
        - by apply span_app. }
      by rewrite Hsp. }
  by rewrite Hg.
Qed.

Lemma extractDescriptionFromReadme_first_paragraph_witness :
  gitfiles.extractDescriptionFromReadme (str "# go-gh-page

Static sites for repositories.
More text.") = str "Static sites for repositories.".
Proof.
  exact (extractDescriptionFromReadme_first_paragraph
           (str " ") (str "o-gh-page") (str "

") (str "tatic sites for repositories.") (str "
More text.") "g" "S" ltac:(done) eq_refl eq_refl eq_refl ltac:(done) eq_refl eq_refl
           eq_refl (or_intror (ex_intro _ _ eq_refl))).
Defined.
